(** * capytaine.mesh.meshes_collection: a shallow embedding

    [CollectionOfMeshes] is a tuple of meshes that behaves like one mesh.
    The children are leaf [Mesh] objects or other collections.  The file
    follows [src/capytaine/mesh/meshes_collection.py]: Python exceptions are
    an error monad, numpy [float64] is Rocq's primitive binary64 float, an
    [(n, 3)] array is a list of rows, Python integers are [nat] where they
    count things and [Z] where they may be negative.

    The collection is a tree of values: no child object sits at two places
    of a tree, so that a method working in place on one child leaves the
    others as they were.  Equality alone asks which object is which: for it
    the objects carry their addresses. *)

From Stdlib Require Import String Ascii List ZArith Arith Bool Floats Lia.
From Stdlib Require Import Permutation Sorted.
Import ListNotations.

Set Implicit Arguments.

(** ** Python exceptions *)

(** The built-in exception classes this module can raise, and classes a
    library would define itself, named by their class name. *)
Inductive exn : Type :=
| AssertionError
| ZeroDivisionError
| ValueError
| TypeError
| IndexError
| AttributeError
| UserDefined (cls : string).

(** [ZeroDivisionError] is a subclass of Python's [ArithmeticError]. *)
Definition is_ArithmeticError (e : exn) : bool :=
  match e with
  | ZeroDivisionError => true
  | _ => false
  end.

Inductive result (A : Type) : Type :=
| Ok (a : A)
| Raise (e : exn).

Arguments Ok {A} a.
Arguments Raise {A} e.

Definition bind {A B : Type} (c : result A) (k : A -> result B) : result B :=
  match c with
  | Ok a => k a
  | Raise e => Raise e
  end.

Declare Scope py_scope.
Delimit Scope py_scope with py.
Notation "x <- c ;; k" := (bind c (fun x => k))
  (at level 61, c at next level, right associativity) : py_scope.
Open Scope py_scope.

(** A list comprehension whose body can raise: left to right, the first
    exception wins. *)
Definition mapM {A B : Type} (f : A -> result B) : list A -> result (list B) :=
  fix go (l : list A) : result (list B) :=
    match l with
    | [] => Ok []
    | a :: l' => b <- f a ;; bs <- go l' ;; Ok (b :: bs)
    end.

(** The same over [zip(xs, ys)]: it stops at the shorter list. *)
Definition zip_mapM {A S B : Type} (f : A -> S -> result B)
  : list A -> list S -> result (list B) :=
  fix go (l : list A) (ss : list S) : result (list B) :=
    match l, ss with
    | a :: l', s :: ss' => b <- f a s ;; bs <- go l' ss' ;; Ok (b :: bs)
    | _, _ => Ok []
    end.

(** ** itertools and builtins *)

(** [sum(iterable)] on integers: a left fold from [0]. *)
Definition py_sum (l : list nat) : nat := fold_left Nat.add l 0.

Fixpoint accumulate_from (total : nat) (l : list nat) : list nat :=
  match l with
  | [] => []
  | x :: l' => (total + x) :: accumulate_from (total + x) l'
  end.

(** [itertools.accumulate]: the running totals of the iterable. *)
Definition accumulate (l : list nat) : list nat :=
  match l with
  | [] => []
  | x :: l' => x :: accumulate_from x l'
  end.

(** [t[:k]] on a tuple; a negative [k] counts from the end. *)
Definition tuple_slice_to {A : Type} (t : list A) (k : Z) : list A :=
  if (0 <=? k)%Z then firstn (Z.to_nat k) t
  else firstn (Z.to_nat (Z.of_nat (length t) + k)) t.

(** [t[k]] on a tuple; a negative [k] counts from the end. *)
Definition tuple_getitem {A : Type} (t : list A) (k : Z) : result A :=
  let i := if (0 <=? k)%Z then k else (Z.of_nat (length t) + k)%Z in
  if (i <? 0)%Z then Raise IndexError
  else match nth_error t (Z.to_nat i) with
       | Some a => Ok a
       | None => Raise IndexError
       end.

(** [slice(start, stop)] with the two non-negative bounds the module builds. *)
Record slice : Type := Slice { slice_start : nat; slice_stop : nat }.

(** [a[s]] on the first axis of an array, for such a slice: the bounds are
    clamped to the length, and an empty range gives an empty array. *)
Definition getitem_slice {A : Type} (a : list A) (s : slice) : list A :=
  firstn (slice_stop s - slice_start s) (skipn (slice_start s) a).

(** ** numpy values *)

(** A [float64] array of shape [(3,)]. *)
Definition vec3 : Type := (float * float * float)%type.

(** A row of the [(n, 4)] integer array of faces: four vertex indices. *)
Definition face : Type := (Z * Z * Z * Z)%type.

(** [float(z)] for a Python integer, rounded to the nearest binary64. *)
Definition float_of_int (z : Z) : float :=
  SF2Prim (binary_normalize prec emax z 0 false).

Definition vec3_map (f : float -> float) (v : vec3) : vec3 :=
  let '(x, y, z) := v in (f x, f y, f z).

Definition vec3_map2 (f : float -> float -> float) (a b : vec3) : vec3 :=
  let '(x, y, z) := a in
  let '(x', y', z') := b in (f x x', f y y', f z z').

(** What the arithmetic of [center_of_mass_of_nodes] handles: a Python
    [int], a Python [float], or an array of shape [(3,)]. *)
Inductive pyvalue : Type :=
| PyInt (z : Z)
| PyFloat (x : float)
| NdArray (v : vec3).

(** [n * v] for a Python int [n]. *)
Definition py_int_mul (n : Z) (v : pyvalue) : pyvalue :=
  match v with
  | PyInt z => PyInt (n * z)
  | PyFloat x => PyFloat (PrimFloat.mul (float_of_int n) x)
  | NdArray a => NdArray (vec3_map (PrimFloat.mul (float_of_int n)) a)
  end.

(** [a + b], with numpy broadcasting a scalar over an array. *)
Definition py_add (a b : pyvalue) : pyvalue :=
  match a, b with
  | PyInt x, PyInt y => PyInt (x + y)
  | PyInt x, PyFloat y => PyFloat (PrimFloat.add (float_of_int x) y)
  | PyFloat x, PyInt y => PyFloat (PrimFloat.add x (float_of_int y))
  | PyFloat x, PyFloat y => PyFloat (PrimFloat.add x y)
  | PyInt x, NdArray v => NdArray (vec3_map (PrimFloat.add (float_of_int x)) v)
  | PyFloat x, NdArray v => NdArray (vec3_map (PrimFloat.add x) v)
  | NdArray v, PyInt y =>
      NdArray (vec3_map (fun c => PrimFloat.add c (float_of_int y)) v)
  | NdArray v, PyFloat y => NdArray (vec3_map (fun c => PrimFloat.add c y) v)
  | NdArray v, NdArray w => NdArray (vec3_map2 PrimFloat.add v w)
  end.

(** [v / n] for a Python int [n]: Python scalars raise on a zero divisor,
    a numpy array divides element by element and never raises. *)
Definition py_truediv_int (v : pyvalue) (n : Z) : result pyvalue :=
  match v with
  | PyInt z =>
      if (n =? 0)%Z then Raise ZeroDivisionError
      else Ok (PyFloat (PrimFloat.div (float_of_int z) (float_of_int n)))
  | PyFloat x =>
      if (n =? 0)%Z then Raise ZeroDivisionError
      else Ok (PyFloat (PrimFloat.div x (float_of_int n)))
  | NdArray a =>
      Ok (NdArray (vec3_map (fun c => PrimFloat.div c (float_of_int n)) a))
  end.

(** [sum(list)] on such values: a left fold from the int [0]. *)
Definition py_sum_values (l : list pyvalue) : pyvalue :=
  fold_left py_add l (PyInt 0).

(** [np.concatenate(arrays)] along the first axis; numpy refuses an empty
    list of arrays. *)
Definition np_concatenate {A : Type} (arrays : list (list A)) : result (list A) :=
  match arrays with
  | [] => Raise ValueError
  | _ :: _ => Ok (concat arrays)
  end.

(** [faces + nbv]: the integer added to every entry of the array. *)
Definition shift_face (nbv : Z) (f : face) : face :=
  let '(a, b, c, d) := f in ((a + nbv)%Z, (b + nbv)%Z, (c + nbv)%Z, (d + nbv)%Z).

Definition shift_faces (nbv : Z) (fs : list face) : list face :=
  map (shift_face nbv) fs.

(** ** Strings *)

Definition newline : string := String (ascii_of_nat 10) EmptyString.

(** [s.replace('\n', by)]. *)
Fixpoint replace_newline (by_ : string) (s : string) : string :=
  match s with
  | EmptyString => EmptyString
  | String c s' =>
      if Ascii.eqb c (ascii_of_nat 10)
      then (by_ ++ replace_newline by_ s')%string
      else String c (replace_newline by_ s')
  end.

(** [sep.join(l)]. *)
Fixpoint join (sep : string) (l : list string) : string :=
  match l with
  | [] => EmptyString
  | [s] => s
  | s :: l' => (s ++ sep ++ join sep l')%string
  end.

(** [s.split('\n')]: the lines of [s], at least one. *)
Fixpoint split_lines (s : string) : list string :=
  match s with
  | EmptyString => [EmptyString]
  | String c s' =>
      if Ascii.eqb c (ascii_of_nat 10)
      then EmptyString :: split_lines s'
      else match split_lines s' with
           | [] => [String c EmptyString]
           | l :: ls => String c l :: ls
           end
  end.

(** ** The leaf mesh *)

(** Modelled from the spec: the leaf [Mesh] class of
    [capytaine.mesh.mesh] is not part of this file.  A leaf holds the
    vertex and face arrays and a name; its counts are the lengths of its
    arrays. *)
Record Mesh : Type := {
  mesh_vertices : list vec3;
  mesh_faces : list face;
  mesh_name : string
}.

Definition mesh_nb_vertices (m : Mesh) : nat := length (mesh_vertices m).
Definition mesh_nb_faces (m : Mesh) : nat := length (mesh_faces m).

(** ** The tree *)

(** A node of the tree: a leaf [Mesh] or a [CollectionOfMeshes] with its
    tuple [_meshes] and its optional [name]. *)
#[warnings="-register-all"]
Inductive node : Type :=
| Leaf (m : Mesh)
| Collection (meshes : list node) (name : option string).

(** Induction on the tree, with the hypothesis for every child. *)
Fixpoint node_rect' (P : node -> Type) (Q : list node -> Type)
  (HL : forall m, P (Leaf m))
  (HC : forall ms name, Q ms -> P (Collection ms name))
  (Hnil : Q [])
  (Hcons : forall n ms, P n -> Q ms -> Q (n :: ms))
  (n : node) : P n :=
  match n with
  | Leaf m => HL m
  | Collection ms name =>
      HC ms name
        ((fix go (l : list node) : Q l :=
            match l with
            | [] => Hnil
            | x :: l' => Hcons x l' (node_rect' P Q HL HC Hnil Hcons x) (go l')
            end) ms)
  end.

(** An object a caller may pass as a child: a mesh or a collection, or
    something of another type. *)
Inductive pyobject : Type :=
| MeshLike (n : node)
| Foreign (type_name : string).

Definition isinstance_Mesh (o : pyobject) : bool :=
  match o with
  | MeshLike (Leaf _) => true
  | _ => false
  end.

Definition isinstance_CollectionOfMeshes (o : pyobject) : bool :=
  match o with
  | MeshLike (Collection _ _) => true
  | _ => false
  end.

(** ** Objects in memory *)

(** The comparison of two tuples asks first whether two items are the same
    object.  So equality works on objects with their addresses: a leaf is
    the address of a mesh in memory, a collection sits at an address and
    holds the objects of its tuple. *)
#[warnings="-register-all"]
Inductive object : Type :=
| MeshAt (address : nat)
| CollectionAt (address : nat) (meshes : list object) (name : option string).

(** Induction on an object, with the hypothesis for every item. *)
Fixpoint object_rect' (P : object -> Type) (Q : list object -> Type)
  (HM : forall p, P (MeshAt p))
  (HC : forall p ms name, Q ms -> P (CollectionAt p ms name))
  (Hnil : Q [])
  (Hcons : forall o ms, P o -> Q ms -> Q (o :: ms))
  (o : object) : P o :=
  match o with
  | MeshAt p => HM p
  | CollectionAt p ms name =>
      HC p ms name
        ((fix go (l : list object) : Q l :=
            match l with
            | [] => Hnil
            | x :: l' =>
                Hcons x l' (object_rect' P Q HM HC Hnil Hcons x) (go l')
            end) ms)
  end.

(** The right operand of [==]: an object of this module, or something of
    another type. *)
Inductive operand : Type :=
| Object (o : object)
| OtherType (type_name : string).

(** [isinstance(other, CollectionOfMeshes)] on such an operand. *)
Definition operand_isinstance_CollectionOfMeshes (other : operand) : bool :=
  match other with
  | Object (CollectionAt _ _ _) => true
  | _ => false
  end.

(** Two lists agree item by item. *)
Definition list_all2 {A : Type} (f : A -> A -> bool)
  : list A -> list A -> bool :=
  fix go (l l' : list A) : bool :=
    match l, l' with
    | [], [] => true
    | a :: t, b :: u => f a b && go t u
    | _, _ => false
    end.

Definition name_eqb (a b : option string) : bool :=
  match a, b with
  | None, None => true
  | Some x, Some y => String.eqb x y
  | _, _ => false
  end.

(** [a is b]: the two sit at the same address.  One address holds one
    object, so that two collections at one address are made of the same
    objects under the same name. *)
Fixpoint py_is (a b : object) : bool :=
  match a, b with
  | MeshAt p, MeshAt q => p =? q
  | CollectionAt p ms name, CollectionAt q ms' name' =>
      (p =? q) && list_all2 py_is ms ms' && name_eqb name name'
  | _, _ => false
  end.

(** ** The collection *)

Section CollectionOfMeshes.

(** The methods of the leaf [Mesh] the collection calls; they live in
    [capytaine.mesh.mesh] and are parameters here. *)

(** Keyword arguments passed through to the leaves unchanged. *)
Variable kwargs : Type.
(** A clipping plane. *)
Variable Plane : Type.
(** [Mesh.volume]: a float. *)
Variable mesh_volume : Mesh -> float.
(** [Mesh.center_of_mass_of_nodes]: an array of shape [(3,)]. *)
Variable mesh_center_of_mass_of_nodes : Mesh -> vec3.
(** [Mesh.clip(plane)]: the mesh after the call, and the content of its
    [_clipping_data['faces_ids']]. *)
Variable mesh_clip : Plane -> Mesh -> Mesh * list Z.
(** [Mesh.keep_immersed_part] with its keyword arguments: the mesh after
    the call. *)
Variable mesh_keep_immersed_part : kwargs -> Mesh -> Mesh.
(** [a == b] on two leaf meshes. *)
Variable mesh_eq : Mesh -> Mesh -> bool.
(** [Mesh.tree_view] with its keyword arguments. *)
Variable mesh_tree_view : kwargs -> Mesh -> string.

(** The methods below are those of [CollectionOfMeshes].  Where a leaf
    has the method too ([nb_vertices], [faces], [clip], ...), the [Leaf]
    case is the method of the leaf; where it has not ([_meshes],
    [nb_submeshes], [indices_of_mesh], [prune_empty_meshes]) the [Leaf] case
    is there for totality and no statement rests on it. *)

(** [CollectionOfMeshes.__init__]: the children are checked one by one by
    an [assert] (assertions are on, as by default); the debug log line has
    no effect on the object. *)
Definition __init__ (meshes : list pyobject) (name : option string)
  : result node :=
  _meshes <- mapM (fun mesh =>
               if isinstance_Mesh mesh || isinstance_CollectionOfMeshes mesh
               then match mesh with
                    | MeshLike n => Ok n
                    | Foreign _ => Raise AssertionError
                    end
               else Raise AssertionError) meshes ;;
  Ok (Collection _meshes name).

(** The attribute [_meshes]: the tuple of children. *)
Definition _meshes (self : node) : list node :=
  match self with
  | Leaf _ => []
  | Collection ms _ => ms
  end.

(** [len(self)], also the property [nb_submeshes]. *)
Definition nb_submeshes (self : node) : nat :=
  match self with
  | Leaf _ => 0
  | Collection ms _ => length ms
  end.

Fixpoint nb_vertices (self : node) : nat :=
  match self with
  | Leaf m => mesh_nb_vertices m
  | Collection ms _ => py_sum (map nb_vertices ms)
  end.

Fixpoint nb_faces (self : node) : nat :=
  match self with
  | Leaf m => mesh_nb_faces m
  | Collection ms _ => py_sum (map nb_faces ms)
  end.

Fixpoint volume (self : node) : pyvalue :=
  match self with
  | Leaf m => PyFloat (mesh_volume m)
  | Collection ms _ => py_sum_values (map volume ms)
  end.

Fixpoint vertices (self : node) : result (list vec3) :=
  match self with
  | Leaf m => Ok (mesh_vertices m)
  | Collection ms _ =>
      arrays <- mapM vertices ms ;;
      np_concatenate arrays
  end.

Fixpoint faces (self : node) : result (list face) :=
  match self with
  | Leaf m => Ok (mesh_faces m)
  | Collection ms _ =>
      let nb_vertices_ := accumulate (0 :: map nb_vertices (removelast ms)) in
      arrays <- zip_mapM (fun mesh nbv =>
                  fs <- faces mesh ;;
                  Ok (shift_faces (Z.of_nat nbv) fs)) ms nb_vertices_ ;;
      np_concatenate arrays
  end.

Fixpoint center_of_mass_of_nodes (self : node) : result pyvalue :=
  match self with
  | Leaf m => Ok (NdArray (mesh_center_of_mass_of_nodes m))
  | Collection ms _ =>
      terms <- mapM (fun mesh =>
                 c <- center_of_mass_of_nodes mesh ;;
                 Ok (py_int_mul (Z.of_nat (nb_vertices mesh)) c)) ms ;;
      py_truediv_int (py_sum_values terms) (Z.of_nat (nb_vertices self))
  end.

(** [indices_of_mesh(mesh_index)]: the slice of the faces of one child. *)
Definition indices_of_mesh (self : node) (mesh_index : Z) : result slice :=
  match self with
  | Leaf _ => Raise AttributeError
  | Collection ms _ =>
      let start := py_sum (map nb_faces (tuple_slice_to ms mesh_index)) in
      mesh <- tuple_getitem ms mesh_index ;;
      Ok (Slice start (start + nb_faces mesh))
  end.

(** [prune_empty_meshes]: keep the children that have faces and vertices. *)
Definition prune_empty_meshes (self : node) : node :=
  match self with
  | Leaf m => Leaf m
  | Collection ms name =>
      Collection
        (filter (fun mesh => (0 <? nb_faces mesh) && (0 <? nb_vertices mesh)) ms)
        name
  end.

(** The loop of [clip]: every child is clipped in turn and its surviving
    face ids, shifted, extend the list of the collection. *)
Definition clip_loop (clip_child : node -> node * list Z)
  : list node -> list nat -> list Z -> list node * list Z :=
  fix go (ms : list node) (faces_shifts : list nat) (faces_ids : list Z) :=
    match ms, faces_shifts with
    | mesh :: ms', faces_shift :: shifts' =>
        let '(mesh', ids) := clip_child mesh in
        let faces_ids' :=
          faces_ids ++ map (fun i => (i + Z.of_nat faces_shift)%Z) ids in
        let '(rest, all_ids) := go ms' shifts' faces_ids' in
        (mesh' :: rest, all_ids)
    | _, _ => ([], faces_ids)
    end.

(** [clip(plane)]: the object after the call, and the content of its
    [_clipping_data['faces_ids']]. *)
Fixpoint clip (plane : Plane) (self : node) : node * list Z :=
  match self with
  | Leaf m => let '(m', ids) := mesh_clip plane m in (Leaf m', ids)
  | Collection ms name =>
      let faces_shifts := accumulate (0 :: map nb_faces (removelast ms)) in
      let '(ms', faces_ids) := clip_loop (clip plane) ms faces_shifts [] in
      (prune_empty_meshes (Collection ms' name), faces_ids)
  end.

Fixpoint keep_immersed_part (kw : kwargs) (self : node) : node :=
  match self with
  | Leaf m => Leaf (mesh_keep_immersed_part kw m)
  | Collection ms name =>
      prune_empty_meshes (Collection (map (keep_immersed_part kw) ms) name)
  end.

(** The meshes in memory, by address. *)
Variable memory : nat -> Mesh.

(** The tree that an object stands for. *)
Fixpoint node_of (o : object) : node :=
  match o with
  | MeshAt p => Leaf (memory p)
  | CollectionAt _ ms name => Collection (map node_of ms) name
  end.

(** [t == u] on two tuples: the lengths agree and every item of [t] is the
    item of [u] at its place, or else is equal to it. *)
Definition tuple_eq {A : Type} (item_is item_eq : A -> A -> bool)
  : list A -> list A -> bool :=
  fix go (t u : list A) : bool :=
    match t, u with
    | [], [] => true
    | a :: t', b :: u' => (item_is a b || item_eq a b) && go t' u'
    | _, _ => false
    end.

(** [a == b] on two objects.  A mesh and a collection are never equal:
    each [__eq__] answers [NotImplemented] for the other type, and the two
    are not the same object. *)
Fixpoint py_eq (a b : object) : bool :=
  match a, b with
  | MeshAt p, MeshAt q => mesh_eq (memory p) (memory q)
  | CollectionAt _ ms _, CollectionAt _ ms' _ => tuple_eq py_is py_eq ms ms'
  | _, _ => false
  end.

(** [CollectionOfMeshes.__eq__]: [None] stands for [NotImplemented]. *)
Definition __eq__ (self : object) (other : operand) : option bool :=
  if operand_isinstance_CollectionOfMeshes other
  then match self, other with
       | CollectionAt _ ms _, Object (CollectionAt _ ms' _) =>
           Some (tuple_eq py_is py_eq ms ms')
       | _, _ => None
       end
  else None.

(** The body of the loop of [tree_view] for the child at index [i] of
    [n] children. *)
Definition tree_view_entry (n i : nat) (tree_view : string) : string :=
  let '(prefix, shift) :=
    if i =? n - 1 then (" └─", "   ")%string else (" ├─", " │ ")%string in
  (prefix ++ replace_newline (newline ++ shift) tree_view)%string.

(** The loop over [enumerate(self)], from index [i] on. *)
Definition tree_view_loop (child_view : node -> result string) (n : nat)
  : nat -> list node -> result (list string) :=
  fix go (i : nat) (ms : list node) : result (list string) :=
    match ms with
    | [] => Ok []
    | mesh :: ms' =>
        tree_view <- child_view mesh ;;
        rest <- go (S i) ms' ;;
        Ok (tree_view_entry n i tree_view :: rest)
    end.

Fixpoint tree_view (kw : kwargs) (self : node) : result string :=
  match self with
  | Leaf m => Ok (mesh_tree_view kw m)
  | Collection ms name =>
      body_tree_views <- tree_view_loop (tree_view kw) (length ms) 0 ms ;;
      match name with
      | Some s => Ok (s ++ newline ++ join newline body_tree_views)%string
      | None => Raise TypeError
      end
  end.

(** *** The other per-face arrays *)

(** [Mesh.faces_normals], [Mesh.faces_areas], [Mesh.faces_centers] and
    [Mesh.faces_radiuses]: one row per face. *)
Variable mesh_faces_normals : Mesh -> list vec3.
Variable mesh_faces_areas : Mesh -> list float.
Variable mesh_faces_centers : Mesh -> list vec3.
Variable mesh_faces_radiuses : Mesh -> list float.

(** [np.concatenate([mesh.p for mesh in self])] for a property [p] that the
    leaves have as an array. *)
Definition concatenate_property {A : Type} (leaf_property : Mesh -> list A)
  : node -> result (list A) :=
  fix go (self : node) : result (list A) :=
    match self with
    | Leaf m => Ok (leaf_property m)
    | Collection ms _ =>
        arrays <- mapM go ms ;;
        np_concatenate arrays
    end.

Definition faces_normals : node -> result (list vec3) :=
  concatenate_property mesh_faces_normals.

Definition faces_areas : node -> result (list float) :=
  concatenate_property mesh_faces_areas.

Definition faces_centers : node -> result (list vec3) :=
  concatenate_property mesh_faces_centers.

Definition faces_radiuses : node -> result (list float) :=
  concatenate_property mesh_faces_radiuses.

(** *** Merging *)

(** [Mesh(vertices, faces, name=name)], [Mesh.merge_duplicates] and
    [Mesh.heal_triangles]. *)
Variable Mesh_new : list vec3 -> list face -> option string -> Mesh.
Variable mesh_merge_duplicates : Mesh -> Mesh.
Variable mesh_heal_triangles : Mesh -> Mesh.

(** [merged(name)]: one mesh out of the arrays of the collection.  The
    [Leaf] case is there for totality and no statement rests on it. *)
Definition merged (name : option string) (self : node) : result Mesh :=
  match self with
  | Leaf m => Ok m
  | Collection _ self_name =>
      let name := match name with
                  | None => self_name
                  | Some _ => name
                  end in
      vs <- vertices self ;;
      fs <- faces self ;;
      Ok (mesh_heal_triangles (mesh_merge_duplicates (Mesh_new vs fs name)))
  end.

(** *** The transformations that keep every child *)

Variable Vector : Type.
Variable Axis : Type.
Variable Angle : Type.
(** [Mesh.translate(vector)], [Mesh.rotate(axis, angle)] and
    [Mesh.mirror(plane)]: the mesh after the call. *)
Variable mesh_translate : Vector -> Mesh -> Mesh.
Variable mesh_rotate : Axis -> Angle -> Mesh -> Mesh.
Variable mesh_mirror : Plane -> Mesh -> Mesh.

Fixpoint translate (vector : Vector) (self : node) : node :=
  match self with
  | Leaf m => Leaf (mesh_translate vector m)
  | Collection ms name => Collection (map (translate vector) ms) name
  end.

Fixpoint rotate (axis : Axis) (angle : Angle) (self : node) : node :=
  match self with
  | Leaf m => Leaf (mesh_rotate axis angle m)
  | Collection ms name => Collection (map (rotate axis angle) ms) name
  end.

Fixpoint mirror (plane : Plane) (self : node) : node :=
  match self with
  | Leaf m => Leaf (mesh_mirror plane m)
  | Collection ms name => Collection (map (mirror plane) ms) name
  end.

End CollectionOfMeshes.

(** ** The statements' vocabulary *)

(** The sum of arrays of shape [(3,)], from the zero array. *)
Definition vec3_sum (l : list vec3) : vec3 :=
  fold_left (vec3_map2 PrimFloat.add) l (zero, zero, zero).

(** The average of the centers [cs], each weighted by the vertex count of
    its child in [counts]. *)
Definition weighted_average (counts : list nat) (cs : list vec3) : vec3 :=
  vec3_map
    (fun s => PrimFloat.div s (float_of_int (Z.of_nat (list_sum counts))))
    (vec3_sum
       (map (fun '(n, c) => vec3_map (PrimFloat.mul (float_of_int (Z.of_nat n))) c)
            (combine counts cs))).

(** The rendering of one child in a tree: [prefix] before its first line,
    [shift] before each of the following lines. *)
Definition render_child (prefix shift : string) (view : string) : string :=
  match split_lines view with
  | [] => prefix
  | l :: ls => join newline ((prefix ++ l)%string :: map (String.append shift) ls)
  end.

(** The surviving face ids of the child at index [i] of [ms], as ids of
    the collection: shifted by the number of faces of the children before
    [i]. *)
Definition shifted_ids_of_child (child_ids : node -> list Z) (ms : list node)
  (i : nat) : list Z :=
  match nth_error ms i with
  | Some mesh =>
      map (fun id => (id + Z.of_nat (list_sum (map nb_faces (firstn i ms))))%Z)
          (child_ids mesh)
  | None => []
  end.

(** The leaves of a tree, from left to right. *)
Fixpoint leaves (n : node) : list Mesh :=
  match n with
  | Leaf m => [m]
  | Collection ms _ => flat_map leaves ms
  end.

(** No collection of the tree, the root included, is without children. *)
Fixpoint no_empty_collection (n : node) : bool :=
  match n with
  | Leaf _ => true
  | Collection ms _ =>
      match ms with
      | [] => false
      | _ :: _ => forallb no_empty_collection ms
      end
  end.

(** Every collection of the tree has a name. *)
Fixpoint all_named (n : node) : bool :=
  match n with
  | Leaf _ => true
  | Collection ms name =>
      match name with
      | Some _ => forallb all_named ms
      | None => false
      end
  end.

(** The four entries of a face are indices of rows of an array of [n]
    vertices. *)
Definition face_in_range (n : nat) (f : face) : Prop :=
  let '(a, b, c, d) := f in
  (0 <= a < Z.of_nat n)%Z /\ (0 <= b < Z.of_nat n)%Z
  /\ (0 <= c < Z.of_nat n)%Z /\ (0 <= d < Z.of_nat n)%Z.

(** The faces of a leaf point into its own vertices. *)
Definition valid_mesh (m : Mesh) : Prop :=
  Forall (face_in_range (mesh_nb_vertices m)) (mesh_faces m).

(** The corners of a face: the rows of [vs] its entries point to. *)
Definition face_corners (vs : list vec3) (f : face)
  : option vec3 * option vec3 * option vec3 * option vec3 :=
  let '(a, b, c, d) := f in
  (nth_error vs (Z.to_nat a), nth_error vs (Z.to_nat b),
   nth_error vs (Z.to_nat c), nth_error vs (Z.to_nat d)).

(** The face arrays of the leaves [ls] one after the other, each shifted
    by the number of vertices before it, from [acc] on. *)
Fixpoint shifted_faces_of_leaves (acc : nat) (ls : list Mesh) : list face :=
  match ls with
  | [] => []
  | m :: ls' =>
      shift_faces (Z.of_nat acc) (mesh_faces m)
      ++ shifted_faces_of_leaves (acc + mesh_nb_vertices m) ls'
  end.

(** Two nodes with the same bookkeeping: as many children, vertices and
    faces, and the same slice for every index of a child. *)
Definition same_counts (a b : node) : Prop :=
  nb_submeshes a = nb_submeshes b
  /\ nb_vertices a = nb_vertices b
  /\ nb_faces a = nb_faces b
  /\ forall k, indices_of_mesh a k = indices_of_mesh b k.

(** ** Sample leaves *)

(** Simple stand-ins for the methods of [Mesh], used to run the model on
    concrete trees. *)

Definition point (x y z : Z) : vec3 :=
  (float_of_int x, float_of_int y, float_of_int z).

(** [np.mean(vertices, axis=0)]. *)
Definition mean_of_vertices (m : Mesh) : vec3 :=
  vec3_map
    (fun s => PrimFloat.div s (float_of_int (Z.of_nat (mesh_nb_vertices m))))
    (vec3_sum (mesh_vertices m)).

Definition vertex_height (vs : list vec3) (i : Z) : float :=
  match nth_error vs (Z.to_nat i) with
  | Some (_, _, z) => z
  | None => nan
  end.

Definition face_under (h : float) (vs : list vec3) (f : face) : bool :=
  let '(a, b, c, d) := f in
  PrimFloat.leb (vertex_height vs a) h && PrimFloat.leb (vertex_height vs b) h
  && PrimFloat.leb (vertex_height vs c) h && PrimFloat.leb (vertex_height vs d) h.

(** A clipper that keeps the faces lying under the height [h]. *)
Definition keep_faces_under (h : float) (m : Mesh) : Mesh * list Z :=
  let numbered := combine (seq 0 (mesh_nb_faces m)) (mesh_faces m) in
  let kept := filter (fun p => face_under h (mesh_vertices m) (snd p)) numbered in
  ({| mesh_vertices := match kept with [] => [] | _ :: _ => mesh_vertices m end;
      mesh_faces := map snd kept;
      mesh_name := mesh_name m |},
   map (fun p => Z.of_nat (fst p)) kept).

Definition vec3_eqb (a b : vec3) : bool :=
  let '(x, y, z) := a in
  let '(x', y', z') := b in
  PrimFloat.eqb x x' && PrimFloat.eqb y y' && PrimFloat.eqb z z'.

Definition face_eqb (f g : face) : bool :=
  let '(a, b, c, d) := f in
  let '(a', b', c', d') := g in
  (a =? a')%Z && (b =? b')%Z && (c =? c')%Z && (d =? d')%Z.

(** Two leaves are equal when their arrays are. *)
Definition same_arrays (m m' : Mesh) : bool :=
  list_all2 vec3_eqb (mesh_vertices m) (mesh_vertices m')
  && list_all2 face_eqb (mesh_faces m) (mesh_faces m').

(** Two leaves are equal when their names are. *)
Definition same_name (m m' : Mesh) : bool :=
  String.eqb (mesh_name m) (mesh_name m').

(** A translation of the vertices of a leaf. *)
Definition move_by (v : vec3) (m : Mesh) : Mesh :=
  {| mesh_vertices := map (vec3_map2 PrimFloat.add v) (mesh_vertices m);
     mesh_faces := mesh_faces m;
     mesh_name := mesh_name m |}.

(** A mirror image of a leaf through the plane of height [h]: the faces
    turn around. *)
Definition flip_over (h : float) (m : Mesh) : Mesh :=
  {| mesh_vertices :=
       map (fun '(x, y, z) =>
              (x, y, PrimFloat.sub (PrimFloat.mul (float_of_int 2) h) z))
           (mesh_vertices m);
     mesh_faces := map (fun '(a, b, c, d) => (d, c, b, a)) (mesh_faces m);
     mesh_name := mesh_name m |}.

(** A quarter of a turn of a leaf about the vertical axis. *)
Definition quarter_turn (axis : unit) (angle : unit) (m : Mesh) : Mesh :=
  {| mesh_vertices :=
       map (fun '(x, y, z) => (PrimFloat.opp y, x, z)) (mesh_vertices m);
     mesh_faces := mesh_faces m;
     mesh_name := mesh_name m |}.

(** Per-face arrays of a leaf: one row for every face. *)
Definition upward_normals (m : Mesh) : list vec3 :=
  map (fun _ => (zero, zero, one)) (mesh_faces m).

Definition unit_areas (m : Mesh) : list float :=
  map (fun _ => one) (mesh_faces m).

Definition first_corners (m : Mesh) : list vec3 :=
  map (fun '(a, _, _, _) =>
         match nth_error (mesh_vertices m) (Z.to_nat a) with
         | Some v => v
         | None => (nan, nan, nan)
         end) (mesh_faces m).

Definition square : Mesh :=
  {| mesh_vertices := [point 0 0 0; point 1 0 0; point 1 1 0; point 0 1 0];
     mesh_faces := [(0, 1, 2, 3)%Z];
     mesh_name := "A"%string |}.

Definition roof : Mesh :=
  {| mesh_vertices := [point 0 0 1; point 1 0 1; point 1 1 1];
     mesh_faces := [(0, 1, 2, 2)%Z; (2, 1, 0, 0)%Z];
     mesh_name := "B"%string |}.

Definition house : node := Collection [Leaf square; Leaf roof] (Some "AB"%string).

(** A mesh with no number among its vertices, which its own [==] denies. *)
Definition blur : Mesh :=
  {| mesh_vertices := [(nan, nan, nan)];
     mesh_faces := [(0, 0, 0, 0)%Z];
     mesh_name := "N"%string |}.

(** A memory: the square at the addresses 0 and 2, the roof at 1, the blur
    anywhere else. *)
Definition sample_memory (p : nat) : Mesh :=
  match p with
  | 0 => square
  | 1 => roof
  | 2 => square
  | _ => blur
  end.

(** * Properties *)

(** ** The error monad and the builtins *)

Lemma bind_Ok_inv (A B : Type) (c : result A) (k : A -> result B) (b : B) :
  bind c k = Ok b -> exists a, c = Ok a /\ k a = Ok b.
Proof.
  destruct c as [a | e]; simpl; intros H.
  - exists a. split; [reflexivity | exact H].
  - discriminate H.
Qed.

Tactic Notation "bind_inv" hyp(H) "as" ident(a) ident(Ha) :=
  apply bind_Ok_inv in H; destruct H as (a & Ha & H).

Lemma mapM_Ok_Forall2 (A B : Type) (f : A -> result B) (l : list A) (bs : list B) :
  mapM f l = Ok bs <-> Forall2 (fun a b => f a = Ok b) l bs.
Proof.
  revert bs. induction l as [| a l IH]; intros bs; simpl.
  - split; intros H.
    + injection H as <-. constructor.
    + inversion H. reflexivity.
  - split; intros H.
    + bind_inv H as b Hb. bind_inv H as bs' Hbs. injection H as <-.
      constructor; [assumption | apply IH; assumption].
    + inversion H as [| a' b l' bs' Hab Hrest]; subst.
      rewrite Hab. simpl. apply IH in Hrest. rewrite Hrest. reflexivity.
Qed.

Lemma fold_left_add_from (l : list nat) (acc : nat) :
  fold_left Nat.add l acc = acc + list_sum l.
Proof.
  revert acc. induction l as [| x l IH]; intros acc; simpl.
  - lia.
  - rewrite IH. lia.
Qed.

(** Python's left-to-right [sum] is the sum of the list. *)
Lemma py_sum_list_sum (l : list nat) : py_sum l = list_sum l.
Proof. unfold py_sum. rewrite fold_left_add_from. reflexivity. Qed.

Lemma length_concat_sum (A : Type) (ls : list (list A)) :
  length (concat ls) = list_sum (map (@length A) ls).
Proof.
  induction ls as [| l ls IH]; simpl.
  - reflexivity.
  - rewrite length_app, IH. reflexivity.
Qed.

Lemma np_concatenate_Ok_inv (A : Type) (arrays : list (list A)) (a : list A) :
  np_concatenate arrays = Ok a -> arrays <> [] /\ a = concat arrays.
Proof.
  destruct arrays; simpl; intros H.
  - discriminate H.
  - injection H as <-. split; [discriminate | reflexivity].
Qed.

(** ** Constructor *)

Lemma init_of_nodes (ns : list node) (name : option string) :
  __init__ (map MeshLike ns) name = Ok (Collection ns name).
Proof.
  unfold __init__.
  assert (H : mapM (fun mesh =>
                 if isinstance_Mesh mesh || isinstance_CollectionOfMeshes mesh
                 then match mesh with
                      | MeshLike n => Ok n
                      | Foreign _ => Raise AssertionError
                      end
                 else Raise AssertionError) (map MeshLike ns) = Ok ns).
  { apply mapM_Ok_Forall2. induction ns as [| n ns IH]; simpl; constructor.
    - destruct n; reflexivity.
    - exact IH. }
  rewrite H. reflexivity.
Qed.

(** C2 (as amended): a child that is neither a [Mesh] nor a
    [CollectionOfMeshes] makes the constructor fail at once, on its
    [assert]: the exception is Python's [AssertionError]. *)
Theorem init_rejects_foreign_child (meshes : list pyobject) (name : option string) :
  Exists (fun o => isinstance_Mesh o = false
                   /\ isinstance_CollectionOfMeshes o = false) meshes ->
  __init__ meshes name = Raise AssertionError.
Proof.
  intros H. unfold __init__.
  induction H as [o l [Hm Hc] | o l H IH].
  - simpl. rewrite Hm, Hc. reflexivity.
  - simpl.
    destruct (isinstance_Mesh o || isinstance_CollectionOfMeshes o);
      [| reflexivity].
    destruct o as [n | t]; [| reflexivity].
    simpl.
    destruct (mapM _ l) as [ns | e] eqn:E.
    + simpl in IH. discriminate IH.
    + simpl in IH. simpl. exact IH.
Qed.

Lemma init_rejects_foreign_child_witness :
  __init__ [MeshLike (Leaf square); Foreign "int"; MeshLike house] None
  = Raise AssertionError.
Proof.
  apply init_rejects_foreign_child.
  apply Exists_cons_tl. apply Exists_cons_hd. split; reflexivity.
Defined.

(** C2, as the specification words it: the exception is not a
    [TypeMismatchError]. *)
Lemma init_foreign_child_not_TypeMismatchError :
  __init__ [Foreign "int"] None <> Raise (UserDefined "TypeMismatchError").
Proof. vm_compute. discriminate. Qed.

(** ** Aggregates *)

Section Aggregates.

Variable mesh_volume : Mesh -> float.
Variable mesh_center_of_mass_of_nodes : Mesh -> vec3.

(** C1 (as amended): on a collection without children the center of mass
    raises Python's [ZeroDivisionError], an [ArithmeticError]: the int [0]
    is divided by the zero vertex count.  The counts and the volume are the
    int [0], and the concatenated arrays raise numpy's [ValueError]. *)
Theorem empty_collection_aggregates (name : option string) :
  center_of_mass_of_nodes mesh_center_of_mass_of_nodes (Collection [] name)
  = Raise ZeroDivisionError
  /\ is_ArithmeticError ZeroDivisionError = true
  /\ nb_vertices (Collection [] name) = 0
  /\ nb_faces (Collection [] name) = 0
  /\ volume mesh_volume (Collection [] name) = PyInt 0
  /\ vertices (Collection [] name) = Raise ValueError
  /\ faces (Collection [] name) = Raise ValueError.
Proof. repeat split. Qed.

Lemma nb_vertices_collection (ms : list node) (name : option string) :
  nb_vertices (Collection ms name) = list_sum (map nb_vertices ms).
Proof. simpl. apply py_sum_list_sum. Qed.

Lemma nb_faces_collection (ms : list node) (name : option string) :
  nb_faces (Collection ms name) = list_sum (map nb_faces ms).
Proof. simpl. apply py_sum_list_sum. Qed.

(** The array of vertices, when it exists, has [nb_vertices] rows. *)
Lemma vertices_length (n : node) :
  forall vs, vertices n = Ok vs -> length vs = nb_vertices n.
Proof.
  induction n as [m | ms name IH | | n ms IHn IHms]
    using node_rect'
    with (Q := fun ms => forall arrays, mapM vertices ms = Ok arrays ->
                 list_sum (map (@length vec3) arrays)
                 = list_sum (map nb_vertices ms)).
  - intros vs H. injection H as <-. reflexivity.
  - intros vs H. simpl in H. bind_inv H as arrays Ha.
    apply np_concatenate_Ok_inv in H. destruct H as [_ ->].
    rewrite length_concat_sum, nb_vertices_collection. apply IH. exact Ha.
  - intros arrays H. injection H as <-. reflexivity.
  - intros arrays H. simpl in H.
    bind_inv H as a Ha. bind_inv H as rest Hrest. injection H as <-.
    simpl. rewrite (IHn _ Ha), (IHms _ Hrest). reflexivity.
Qed.

(** The array of faces, when it exists, has [nb_faces] rows. *)
Lemma zip_mapM_faces_lengths (ms : list node) :
  Forall (fun n => forall fs, faces n = Ok fs -> length fs = nb_faces n) ms ->
  forall shifts arrays,
    zip_mapM (fun mesh nbv => fs <- faces mesh ;;
                              Ok (shift_faces (Z.of_nat nbv) fs)) ms shifts
    = Ok arrays ->
    length ms <= length shifts ->
    list_sum (map (@length face) arrays) = list_sum (map nb_faces ms).
Proof.
  induction 1 as [| n ms Hn Hms IH]; intros shifts arrays H Hlen.
  - simpl in H. injection H as <-. reflexivity.
  - destruct shifts as [| s shifts]; [simpl in Hlen; lia |].
    simpl in H. bind_inv H as a Ha. bind_inv Ha as fs Hfs. injection Ha as <-.
    bind_inv H as rest Hrest. injection H as <-.
    simpl. unfold shift_faces at 1. rewrite length_map.
    rewrite (Hn _ Hfs). f_equal. apply (IH shifts); [assumption |].
    simpl in Hlen. lia.
Qed.

Lemma length_accumulate_from (total : nat) (l : list nat) :
  length (accumulate_from total l) = length l.
Proof.
  revert total. induction l as [| x l IH]; intros total; simpl;
    [reflexivity | rewrite IH; reflexivity].
Qed.

Lemma length_removelast (A : Type) (l : list A) :
  length (removelast l) = length l - 1.
Proof.
  induction l as [| a [| b l] IH]; simpl in *; try reflexivity.
  rewrite IH. lia.
Qed.

Lemma length_shifts (f : node -> nat) (ms : list node) :
  length ms <= length (accumulate (0 :: map f (removelast ms))).
Proof.
  simpl. rewrite length_accumulate_from, length_map, length_removelast. lia.
Qed.

Lemma faces_length (n : node) :
  forall fs, faces n = Ok fs -> length fs = nb_faces n.
Proof.
  induction n as [m | ms name IH | | n ms IHn IHms]
    using node_rect'
    with (Q := Forall (fun n => forall fs, faces n = Ok fs ->
                                 length fs = nb_faces n)).
  - intros fs H. injection H as <-. reflexivity.
  - intros fs H. simpl in H. bind_inv H as arrays Ha.
    apply np_concatenate_Ok_inv in H. destruct H as [_ ->].
    rewrite length_concat_sum, nb_faces_collection.
    apply (zip_mapM_faces_lengths IH _ Ha).
    apply (length_shifts nb_vertices).
  - constructor.
  - constructor; assumption.
Qed.

(** C3: in a collection of leaves [L1..Ln], [nb_faces] is the sum of the
    face counts of the leaves, and the concatenated array of vertices has
    as many rows as the leaves have vertices together. *)
Theorem counts_of_collection_of_leaves (ls : list Mesh) (name : option string) :
  ls <> [] ->
  nb_faces (Collection (map Leaf ls) name) = list_sum (map mesh_nb_faces ls)
  /\ exists vs,
       vertices (Collection (map Leaf ls) name) = Ok vs
       /\ length vs = list_sum (map mesh_nb_vertices ls).
Proof.
  intros Hne. split.
  - rewrite nb_faces_collection, map_map. reflexivity.
  - assert (Hm : mapM vertices (map Leaf ls) = Ok (map mesh_vertices ls)).
    { apply mapM_Ok_Forall2. clear Hne.
      induction ls as [| m ls IH]; simpl; constructor; [reflexivity | exact IH]. }
    exists (concat (map mesh_vertices ls)). split.
    + simpl. rewrite Hm. simpl.
      destruct ls as [| m ls]; [contradiction Hne; reflexivity | reflexivity].
    + rewrite length_concat_sum, map_map. reflexivity.
Qed.

End Aggregates.

Lemma counts_of_collection_of_leaves_witness :
  nb_faces house = 3
  /\ exists vs, vertices house = Ok vs /\ length vs = 7.
Proof.
  apply (@counts_of_collection_of_leaves [square; roof] (Some "AB"%string)).
  discriminate.
Defined.

(** C1, as the specification words it: the exception is not an
    [EmptyCollectionError]. *)
Lemma empty_center_of_mass_not_EmptyCollectionError :
  center_of_mass_of_nodes mean_of_vertices (Collection [] None)
  <> Raise (UserDefined "EmptyCollectionError").
Proof. vm_compute. discriminate. Qed.

(** ** Faces and their slices *)

(** The loop of [faces] never looks at what [accumulate] would yield for
    the last child: dropping it with [self[:-1]] changes nothing. *)
Lemma zip_mapM_removelast (B : Type) (g : node -> nat -> result B)
  (f : node -> nat) (ms : list node) :
  forall acc,
    zip_mapM g ms (acc :: accumulate_from acc (map f (removelast ms)))
    = zip_mapM g ms (acc :: accumulate_from acc (map f ms)).
Proof.
  induction ms as [| m ms IH]; intros acc.
  - reflexivity.
  - destruct ms as [| m2 ms].
    + simpl. destruct (g m acc); reflexivity.
    + specialize (IH (acc + f m)).
      change (removelast (m :: m2 :: ms)) with (m :: removelast (m2 :: ms)).
      cbn [map accumulate_from zip_mapM].
      cbn [zip_mapM] in IH.
      destruct (g m acc) as [b |]; [| reflexivity].
      cbn [bind]. rewrite IH. reflexivity.
Qed.

Lemma tuple_slice_to_nat (A : Type) (t : list A) (i : nat) :
  tuple_slice_to t (Z.of_nat i) = firstn i t.
Proof.
  unfold tuple_slice_to.
  destruct (0 <=? Z.of_nat i)%Z eqn:E; [| apply Z.leb_gt in E; lia].
  rewrite Nat2Z.id. reflexivity.
Qed.

Lemma tuple_getitem_nat (A : Type) (t : list A) (i : nat) (a : A) :
  nth_error t i = Some a -> tuple_getitem t (Z.of_nat i) = Ok a.
Proof.
  intros H. unfold tuple_getitem.
  destruct (0 <=? Z.of_nat i)%Z eqn:E; [| apply Z.leb_gt in E; lia].
  destruct (Z.of_nat i <? 0)%Z eqn:E'; [apply Z.ltb_lt in E'; lia |].
  rewrite Nat2Z.id, H. reflexivity.
Qed.

Lemma getitem_slice_head (A : Type) (a rest : list A) (k : nat) :
  k = length a -> getitem_slice (a ++ rest) (Slice 0 (0 + k)) = a.
Proof.
  intros ->. unfold getitem_slice. simpl.
  rewrite Nat.sub_0_r, firstn_app, Nat.sub_diag, firstn_all. simpl.
  apply app_nil_r.
Qed.

Lemma getitem_slice_tail (A : Type) (a rest : list A) (n s k : nat) :
  n = length a ->
  getitem_slice (a ++ rest) (Slice (n + s) (n + s + k))
  = getitem_slice rest (Slice s (s + k)).
Proof.
  intros ->. unfold getitem_slice. simpl.
  rewrite skipn_app, skipn_all2 by lia. simpl.
  replace (length a + s - length a) with s by lia.
  replace (length a + s + k - (length a + s)) with (s + k - s) by lia.
  reflexivity.
Qed.

Lemma faces_loop_slice (ms : list node) :
  forall acc arrays i mi,
    zip_mapM (fun mesh nbv => fs <- faces mesh ;;
                              Ok (shift_faces (Z.of_nat nbv) fs))
             ms (acc :: accumulate_from acc (map nb_vertices ms))
    = Ok arrays ->
    nth_error ms i = Some mi ->
    exists fi,
      faces mi = Ok fi
      /\ getitem_slice (concat arrays)
           (Slice (list_sum (map nb_faces (firstn i ms)))
                  (list_sum (map nb_faces (firstn i ms)) + nb_faces mi))
         = shift_faces
             (Z.of_nat (acc + list_sum (map nb_vertices (firstn i ms)))) fi.
Proof.
  induction ms as [| m ms IH]; intros acc arrays i mi H Hi.
  - destruct i; discriminate Hi.
  - cbn [map accumulate_from zip_mapM] in H.
    bind_inv H as a Ha. bind_inv Ha as fs Hfs. injection Ha as <-.
    bind_inv H as rest Hrest. injection H as <-.
    assert (Hlen : nb_faces m = length (shift_faces (Z.of_nat acc) fs)).
    { unfold shift_faces. rewrite length_map. symmetry.
      apply faces_length. exact Hfs. }
    destruct i as [| i].
    + injection Hi as <-. exists fs. split; [exact Hfs |].
      cbn [firstn map list_sum concat].
      rewrite Nat.add_0_r.
      apply getitem_slice_head. exact Hlen.
    + cbn [nth_error] in Hi.
      destruct (IH (acc + nb_vertices m) rest i mi Hrest Hi) as (fi & Hfi & Hs).
      exists fi. split; [exact Hfi |].
      cbn [firstn map concat].
      change (list_sum (nb_faces m :: map nb_faces (firstn i ms)))
        with (nb_faces m + list_sum (map nb_faces (firstn i ms))).
      change (list_sum (nb_vertices m :: map nb_vertices (firstn i ms)))
        with (nb_vertices m + list_sum (map nb_vertices (firstn i ms))).
      rewrite getitem_slice_tail by exact Hlen.
      rewrite Hs. rewrite Nat.add_assoc. reflexivity.
Qed.

(** C4: for a valid child index [i], [indices_of_mesh(i)] starts at the
    number of faces of the children before [i] and spans the faces of the
    child [i]; the array [faces], sliced by it, is the face array of the
    child [i] with every vertex index shifted by the number of vertices of
    the children before [i]. *)
Theorem indices_of_mesh_slice_of_faces
  (ms : list node) (name : option string) (i : nat) (mi : node) :
  nth_error ms i = Some mi ->
  let start := list_sum (map nb_faces (firstn i ms)) in
  indices_of_mesh (Collection ms name) (Z.of_nat i)
  = Ok (Slice start (start + nb_faces mi))
  /\ forall fs,
       faces (Collection ms name) = Ok fs ->
       exists fi,
         faces mi = Ok fi
         /\ getitem_slice fs (Slice start (start + nb_faces mi))
            = shift_faces
                (Z.of_nat (list_sum (map nb_vertices (firstn i ms)))) fi.
Proof.
  intros Hi start. split.
  - unfold indices_of_mesh.
    rewrite tuple_slice_to_nat, (tuple_getitem_nat _ _ Hi), py_sum_list_sum.
    reflexivity.
  - intros fs H. cbn [faces] in H. bind_inv H as arrays Ha.
    apply np_concatenate_Ok_inv in H. destruct H as [_ ->].
    unfold accumulate in Ha. rewrite zip_mapM_removelast in Ha.
    destruct (@faces_loop_slice ms 0 arrays i mi Ha Hi) as (fi & Hfi & Hs).
    exists fi. split; [exact Hfi | exact Hs].
Qed.

Lemma indices_of_mesh_slice_of_faces_witness :
  indices_of_mesh house 1 = Ok (Slice 1 3)
  /\ forall fs,
       faces house = Ok fs ->
       exists fi,
         faces (Leaf roof) = Ok fi
         /\ getitem_slice fs (Slice 1 3) = shift_faces 4 fi.
Proof.
  apply (@indices_of_mesh_slice_of_faces
           [Leaf square; Leaf roof] (Some "AB"%string) 1 (Leaf roof)).
  reflexivity.
Defined.

(** ** Clipping and pruning *)

Lemma flat_map_map (A B C : Type) (f : B -> list C) (g : A -> B) (l : list A) :
  flat_map f (map g l) = flat_map (fun a => f (g a)) l.
Proof.
  induction l as [| a l IH]; simpl; [reflexivity | rewrite IH; reflexivity].
Qed.

Lemma clip_loop_removelast (clip_child : node -> node * list Z)
  (f : node -> nat) (ms : list node) :
  forall acc ids,
    clip_loop clip_child ms (acc :: accumulate_from acc (map f (removelast ms))) ids
    = clip_loop clip_child ms (acc :: accumulate_from acc (map f ms)) ids.
Proof.
  induction ms as [| m ms IH]; intros acc ids.
  - reflexivity.
  - destruct ms as [| m2 ms].
    + simpl. destruct (clip_child m); reflexivity.
    + specialize (IH (acc + f m)).
      change (removelast (m :: m2 :: ms)) with (m :: removelast (m2 :: ms)).
      cbn [map accumulate_from clip_loop].
      cbn [clip_loop] in IH.
      destruct (clip_child m) as [m' ids'].
      rewrite IH. reflexivity.
Qed.

Lemma clip_loop_spec (clip_child : node -> node * list Z) (ms : list node) :
  forall acc ids,
    clip_loop clip_child ms (acc :: accumulate_from acc (map nb_faces ms)) ids
    = (map (fun m => fst (clip_child m)) ms,
       ids ++ flat_map
                (fun i =>
                   match nth_error ms i with
                   | Some mesh =>
                       map (fun id =>
                              (id + Z.of_nat
                                      (acc + list_sum (map nb_faces (firstn i ms))))%Z)
                           (snd (clip_child mesh))
                   | None => []
                   end)
                (seq 0 (length ms))).
Proof.
  induction ms as [| m ms IH]; intros acc ids.
  - simpl. rewrite app_nil_r. reflexivity.
  - cbn [map accumulate_from clip_loop].
    destruct (clip_child m) as [m' ids'] eqn:E.
    rewrite IH. cbn [fst length seq flat_map nth_error firstn map snd].
    rewrite <- seq_shift, flat_map_map, E.
    change (list_sum []) with 0. rewrite Nat.add_0_r.
    rewrite <- app_assoc. cbn [fst snd].
    f_equal. f_equal. f_equal.
    apply flat_map_ext. intros i.
    cbn [nth_error firstn map].
    change (list_sum (nb_faces m :: map nb_faces (firstn i ms)))
      with (nb_faces m + list_sum (map nb_faces (firstn i ms))).
    rewrite Nat.add_assoc. reflexivity.
Qed.

Section Clipping.

Variable kwargs : Type.
Variable Plane : Type.
Variable mesh_clip : Plane -> Mesh -> Mesh * list Z.
Variable mesh_keep_immersed_part : kwargs -> Mesh -> Mesh.

Lemma clip_collection (plane : Plane) (ms : list node) (name : option string) :
  clip mesh_clip plane (Collection ms name)
  = (prune_empty_meshes
       (Collection (map (fun m => fst (clip mesh_clip plane m)) ms) name),
     flat_map (shifted_ids_of_child (fun m => snd (clip mesh_clip plane m)) ms)
              (seq 0 (length ms))).
Proof.
  cbn [clip]. unfold accumulate.
  rewrite clip_loop_removelast, clip_loop_spec.
  reflexivity.
Qed.

(** C5: after [clip], the recorded list of surviving faces is the union, in
    the order of the children, of the surviving face ids of each child,
    each shifted by the number of faces that the children before it had
    before the clip. *)
Theorem clip_faces_ids (plane : Plane) (ms : list node) (name : option string) :
  snd (clip mesh_clip plane (Collection ms name))
  = flat_map (shifted_ids_of_child (fun m => snd (clip mesh_clip plane m)) ms)
             (seq 0 (length ms)).
Proof. rewrite clip_collection. reflexivity. Qed.

Lemma pruned_children_not_empty (ms : list node) (name : option string) :
  Forall (fun m => 0 < nb_faces m /\ 0 < nb_vertices m)
         (_meshes (prune_empty_meshes (Collection ms name))).
Proof.
  simpl. apply Forall_forall. intros m Hm.
  apply filter_In in Hm. destruct Hm as [_ Hm].
  apply andb_true_iff in Hm. destruct Hm as [Hf Hv].
  split; apply Nat.ltb_lt; assumption.
Qed.

(** C6: after [clip] and after [keep_immersed_part], every child left in
    the collection has at least one face and at least one vertex; when the
    clip leaves no face in any child, no child is left. *)
Theorem clip_leaves_no_empty_child
  (plane : Plane) (kw : kwargs) (ms : list node) (name : option string) :
  Forall (fun m => 0 < nb_faces m /\ 0 < nb_vertices m)
         (_meshes (fst (clip mesh_clip plane (Collection ms name))))
  /\ Forall (fun m => 0 < nb_faces m /\ 0 < nb_vertices m)
            (_meshes (keep_immersed_part mesh_keep_immersed_part kw
                        (Collection ms name)))
  /\ (Forall (fun m => nb_faces (fst (clip mesh_clip plane m)) = 0) ms ->
      nb_submeshes (fst (clip mesh_clip plane (Collection ms name))) = 0).
Proof.
  split; [| split].
  - rewrite clip_collection. apply pruned_children_not_empty.
  - cbn [keep_immersed_part]. apply pruned_children_not_empty.
  - intros H. rewrite clip_collection. cbn [fst prune_empty_meshes nb_submeshes].
    induction H as [| m ms Hm _ IH]; [reflexivity |].
    cbn [map filter]. rewrite Hm. exact IH.
Qed.

End Clipping.

(** ** Equality *)

Lemma tuple_eq_Forall2 (A : Type) (item_is item_eq : A -> A -> bool)
  (t u : list A) :
  tuple_eq item_is item_eq t u = true
  <-> Forall2 (fun a b => item_is a b = true \/ item_eq a b = true) t u.
Proof.
  revert u. induction t as [| a t IH]; intros [| b u]; simpl.
  - split; [constructor | reflexivity].
  - split; [discriminate | intros H; inversion H].
  - split; [discriminate | intros H; inversion H].
  - rewrite andb_true_iff, orb_true_iff, IH. split.
    + intros [Hab Htu]. constructor; assumption.
    + intros H. inversion H; subst. split; assumption.
Qed.

Lemma list_all2_refl (A : Type) (f : A -> A -> bool) (l : list A) :
  Forall (fun a => f a a = true) l -> list_all2 f l l = true.
Proof.
  induction 1 as [| a l Ha _ IH]; simpl; [reflexivity |].
  rewrite Ha, IH. reflexivity.
Qed.

Lemma name_eqb_refl (name : option string) : name_eqb name name = true.
Proof. destruct name as [s |]; [apply String.eqb_refl | reflexivity]. Qed.

(** An object is itself. *)
Lemma py_is_refl (a : object) : py_is a a = true.
Proof.
  induction a as [p | p ms name IH | | o ms IHo IHms]
    using object_rect'
    with (Q := Forall (fun a => py_is a a = true)).
  - apply Nat.eqb_refl.
  - cbn [py_is].
    rewrite Nat.eqb_refl, (list_all2_refl _ IH), name_eqb_refl. reflexivity.
  - constructor.
  - constructor; assumption.
Qed.

(** Two lists related item by item, whose related items are equal, are
    equal. *)
Lemma Forall2_equal_places (A : Type) (R : A -> A -> Prop) (l l' : list A) :
  Forall2 R l l' ->
  (forall i a b, nth_error l i = Some a -> nth_error l' i = Some b ->
                 R a b -> a = b) ->
  l = l'.
Proof.
  induction 1 as [| a b l l' Hab _ IH]; intros Heq; [reflexivity |].
  f_equal.
  - apply (Heq 0 a b); [reflexivity | reflexivity | exact Hab].
  - apply IH. intros i x y Hx Hy. apply (Heq (S i) x y); assumption.
Qed.

Section Equality.

Variable mesh_eq : Mesh -> Mesh -> bool.
Variable memory : nat -> Mesh.

(** A tuple of objects of which no two are equal is equal to none of its
    other arrangements. *)
Lemma rearranged_tuple_not_equal (ms ms' : list object) :
  Permutation ms ms' ->
  ms <> ms' ->
  (forall i j a b,
      i <> j -> nth_error ms i = Some a -> nth_error ms j = Some b ->
      py_is a b = false /\ py_eq mesh_eq memory a b = false) ->
  tuple_eq py_is (py_eq mesh_eq memory) ms ms' = false.
Proof.
  intros Hperm Hne Hdistinct.
  destruct (tuple_eq py_is (py_eq mesh_eq memory) ms ms') eqn:E;
    [| reflexivity].
  exfalso. apply Hne.
  apply tuple_eq_Forall2 in E.
  apply (Forall2_equal_places E).
  intros i a b Ha Hb Hab.
  assert (Hin : In b ms).
  { apply (Permutation_in b (Permutation_sym Hperm)).
    apply (nth_error_In _ _ Hb). }
  apply In_nth_error in Hin. destruct Hin as [j Hj].
  destruct (Nat.eq_dec i j) as [<- | Hij].
  - rewrite Ha in Hj. injection Hj as <-. reflexivity.
  - destruct (Hdistinct i j a b Hij Ha Hj) as [His Heq].
    destruct Hab as [Hab | Hab]; congruence.
Qed.

(** C7 (as amended): two collections compare equal exactly when their
    tuples of children have the same length and, place by place, the two
    children are the same object or compare equal; the names play no part.
    Two collections that hold the same children in a different order
    compare unequal when no two of these children are the same object or
    compare equal.  A collection compares equal to itself, whatever the
    equality of its leaves says. *)
Theorem collections_equal_iff_children_equal
  (p p' : nat) (ms ms' : list object) (name name' : option string) :
  (__eq__ mesh_eq memory (CollectionAt p ms name)
          (Object (CollectionAt p' ms' name'))
   = Some true
   <-> Forall2 (fun a b => py_is a b = true
                           \/ py_eq mesh_eq memory a b = true) ms ms')
  /\ (Permutation ms ms' ->
      ms <> ms' ->
      (forall i j a b,
          i <> j -> nth_error ms i = Some a -> nth_error ms j = Some b ->
          py_is a b = false /\ py_eq mesh_eq memory a b = false) ->
      __eq__ mesh_eq memory (CollectionAt p ms name)
             (Object (CollectionAt p' ms' name'))
      = Some false)
  /\ __eq__ mesh_eq memory (CollectionAt p ms name)
            (Object (CollectionAt p ms name))
     = Some true.
Proof.
  cbn [__eq__ operand_isinstance_CollectionOfMeshes]. split; [| split].
  - rewrite <- tuple_eq_Forall2. split.
    + intros H. injection H as H. exact H.
    + intros ->. reflexivity.
  - intros Hperm Hne Hdistinct. f_equal.
    apply rearranged_tuple_not_equal; assumption.
  - f_equal. apply tuple_eq_Forall2.
    induction ms as [| a l IH]; constructor.
    + left. apply py_is_refl.
    + exact IH.
Qed.

End Equality.

(** ** Center of mass *)

Lemma float_of_int_0 : float_of_int 0 = zero.
Proof. reflexivity. Qed.

Lemma fold_py_add_arrays (ts : list vec3) (a : vec3) :
  fold_left py_add (map NdArray ts) (NdArray a)
  = NdArray (fold_left (vec3_map2 PrimFloat.add) ts a).
Proof.
  revert a. induction ts as [| t ts IH]; intros a; simpl.
  - reflexivity.
  - apply IH.
Qed.

(** Python's [sum] of a non-empty list of arrays is their sum from the
    zero array: the int [0] it starts from is broadcast. *)
Lemma py_sum_values_arrays (ts : list vec3) :
  ts <> [] -> py_sum_values (map NdArray ts) = NdArray (vec3_sum ts).
Proof.
  destruct ts as [| t ts]; [intros H; contradiction H; reflexivity |].
  intros _. unfold py_sum_values, vec3_sum.
  cbn [map fold_left]. destruct t as [[x y] z]. cbn [py_add vec3_map vec3_map2].
  rewrite float_of_int_0. apply fold_py_add_arrays.
Qed.

Section CenterOfMass.

Variable mesh_center_of_mass_of_nodes : Mesh -> vec3.

Lemma center_of_mass_terms (ms : list node) (cs : list vec3) :
  Forall2 (fun m c =>
             center_of_mass_of_nodes mesh_center_of_mass_of_nodes m
             = Ok (NdArray c)) ms cs ->
  mapM (fun mesh =>
          c <- center_of_mass_of_nodes mesh_center_of_mass_of_nodes mesh ;;
          Ok (py_int_mul (Z.of_nat (nb_vertices mesh)) c)) ms
  = Ok (map NdArray
          (map (fun '(n, c) => vec3_map (PrimFloat.mul (float_of_int (Z.of_nat n))) c)
               (combine (map nb_vertices ms) cs))).
Proof.
  induction 1 as [| m c ms cs Hm _ IH]; [reflexivity |].
  cbn [mapM]. rewrite Hm. cbn [bind]. rewrite IH. reflexivity.
Qed.

(** C8: the center of mass of a non-empty collection is the sum over the
    children of the vertex count of the child times its center of mass,
    divided by the vertex count of the collection, which is the plain sum
    of the vertex counts of the children: a vertex present in two children
    counts twice. *)
Theorem center_of_mass_weighted_by_vertex_counts
  (ms : list node) (name : option string) (cs : list vec3) :
  ms <> [] ->
  Forall2 (fun m c =>
             center_of_mass_of_nodes mesh_center_of_mass_of_nodes m
             = Ok (NdArray c)) ms cs ->
  center_of_mass_of_nodes mesh_center_of_mass_of_nodes (Collection ms name)
  = Ok (NdArray (weighted_average (map nb_vertices ms) cs))
  /\ list_sum (map nb_vertices ms) = nb_vertices (Collection ms name).
Proof.
  intros Hne H. split.
  - cbn [center_of_mass_of_nodes].
    rewrite (center_of_mass_terms H). cbn [bind].
    rewrite py_sum_values_arrays.
    + rewrite nb_vertices_collection. reflexivity.
    + inversion H as [| m c ms0 cs0 Hm Hrest]; subst.
      * contradiction Hne; reflexivity.
      * simpl. discriminate.
  - symmetry. apply nb_vertices_collection.
Qed.

(** A center of mass, when there is one, is an array. *)
Lemma center_of_mass_is_array (n : node) :
  forall v,
    center_of_mass_of_nodes mesh_center_of_mass_of_nodes n = Ok v ->
    exists c, v = NdArray c.
Proof.
  induction n as [m | ms name IH | | n ms IHn IHms]
    using node_rect'
    with (Q := fun ms => forall terms,
                 mapM (fun mesh =>
                         c <- center_of_mass_of_nodes
                                mesh_center_of_mass_of_nodes mesh ;;
                         Ok (py_int_mul (Z.of_nat (nb_vertices mesh)) c)) ms
                 = Ok terms ->
                 length terms = length ms
                 /\ exists ts, terms = map NdArray ts).
  - intros v H. injection H as <-. eexists. reflexivity.
  - intros v H. cbn [center_of_mass_of_nodes] in H.
    bind_inv H as terms Ht.
    destruct (IH _ Ht) as (Hlen & ts & ->).
    destruct ts as [| t ts].
    + destruct ms; [| discriminate Hlen]. discriminate H.
    + rewrite py_sum_values_arrays in H by discriminate.
      injection H as <-. eexists. reflexivity.
  - intros terms H. injection H as <-. split; [reflexivity |].
    exists []. reflexivity.
  - intros terms H. cbn [mapM] in H.
    bind_inv H as t Ht. bind_inv Ht as c Hc. injection Ht as <-.
    bind_inv H as rest Hrest. injection H as <-.
    destruct (IHn _ Hc) as (a & ->).
    destruct (IHms _ Hrest) as (Hlen & ts & ->).
    split; [simpl; rewrite Hlen; reflexivity |].
    exists (vec3_map (PrimFloat.mul (float_of_int (Z.of_nat (nb_vertices n)))) a :: ts).
    reflexivity.
Qed.

End CenterOfMass.

(** ** Tree view *)

Lemma append_assoc (a b c : string) :
  ((a ++ b) ++ c = a ++ (b ++ c))%string.
Proof.
  induction a as [| ch a IH]; simpl; [reflexivity | rewrite IH; reflexivity].
Qed.

Lemma split_lines_not_nil (s : string) : split_lines s <> [].
Proof.
  destruct s as [| c s]; simpl; [discriminate |].
  destruct (Ascii.eqb c (ascii_of_nat 10)); [discriminate |].
  destruct (split_lines s); discriminate.
Qed.

Lemma join_push_prefix (sep p l : string) (ls : list string) :
  join sep ((p ++ l)%string :: ls) = (p ++ join sep (l :: ls))%string.
Proof.
  destruct ls as [| l' ls]; simpl; [reflexivity | apply append_assoc].
Qed.

Lemma join_cons_cons (sep a b : string) (l : list string) :
  join sep (a :: b :: l) = (a ++ sep ++ join sep (b :: l))%string.
Proof. reflexivity. Qed.

(** Replacing every newline by a newline and [shift] puts [shift] before
    every line but the first. *)
Lemma replace_newline_lines (shift s : string) :
  replace_newline (newline ++ shift) s
  = match split_lines s with
    | [] => EmptyString
    | l :: ls => join newline (l :: map (String.append shift) ls)
    end.
Proof.
  induction s as [| c s IH]; [reflexivity |].
  cbn [replace_newline split_lines].
  destruct (Ascii.eqb c (ascii_of_nat 10)).
  - rewrite IH. destruct (split_lines s) as [| l ls] eqn:E.
    + contradiction (split_lines_not_nil s).
    + cbn [map]. rewrite join_cons_cons, join_push_prefix.
      cbn [String.append]. rewrite append_assoc. reflexivity.
  - rewrite IH. destruct (split_lines s) as [| l ls] eqn:E.
    + contradiction (split_lines_not_nil s).
    + change (String c l) with (String c EmptyString ++ l)%string.
      rewrite join_push_prefix. reflexivity.
Qed.

Lemma prefix_replace_newline (prefix shift s : string) :
  (prefix ++ replace_newline (newline ++ shift) s)%string
  = render_child prefix shift s.
Proof.
  unfold render_child. rewrite replace_newline_lines.
  destruct (split_lines s) as [| l ls] eqn:E.
  - contradiction (split_lines_not_nil s).
  - symmetry. apply join_push_prefix.
Qed.

Lemma tree_view_entry_last (n i : nat) (view : string) :
  i = n - 1 -> tree_view_entry n i view = render_child " └─" "   " view.
Proof.
  intros ->. unfold tree_view_entry. rewrite Nat.eqb_refl.
  apply prefix_replace_newline.
Qed.

Lemma tree_view_entry_inner (n i : nat) (view : string) :
  i <> n - 1 -> tree_view_entry n i view = render_child " ├─" " │ " view.
Proof.
  intros H. unfold tree_view_entry.
  apply Nat.eqb_neq in H. rewrite H.
  apply prefix_replace_newline.
Qed.

Lemma tree_view_loop_spec (child_view : node -> result string)
  (init : list node) (lst : node) (views : list string) (view : string) :
  Forall2 (fun m v => child_view m = Ok v) init views ->
  child_view lst = Ok view ->
  forall n i,
    n = i + length init + 1 ->
    tree_view_loop child_view n i (init ++ [lst])
    = Ok (map (render_child " ├─" " │ ") views
          ++ [render_child " └─" "   " view]).
Proof.
  intros H Hlst. induction H as [| m v init views Hm _ IH]; intros n i Hn.
  - simpl. rewrite Hlst. simpl.
    rewrite tree_view_entry_last by (simpl in Hn; lia). reflexivity.
  - cbn [app tree_view_loop]. rewrite Hm. cbn [bind].
    rewrite (IH n (S i)) by (simpl in Hn; lia). cbn [bind map app].
    rewrite tree_view_entry_inner by (simpl in Hn; lia). reflexivity.
Qed.

Section TreeView.

Variable kwargs : Type.
Variable mesh_tree_view : kwargs -> Mesh -> string.

(** C9: in the tree view of a named collection of two children or more,
    every child but the last comes after the branch glyph, with the bar
    before each of its further lines, and the last child comes after the
    corner glyph, with blanks and no bar before its further lines. *)
Theorem tree_view_branches (kw : kwargs) (init : list node) (lst : node)
  (name : string) (views : list string) (view : string) :
  init <> [] ->
  Forall2 (fun m v => tree_view mesh_tree_view kw m = Ok v) init views ->
  tree_view mesh_tree_view kw lst = Ok view ->
  tree_view mesh_tree_view kw (Collection (init ++ [lst]) (Some name))
  = Ok (name ++ newline
        ++ join newline
             (map (render_child " ├─" " │ ") views
              ++ [render_child " └─" "   " view]))%string.
Proof.
  intros _ H Hlst. cbn [tree_view].
  rewrite (@tree_view_loop_spec (tree_view mesh_tree_view kw) init lst
             views view H Hlst (length (init ++ [lst])) 0).
  - reflexivity.
  - rewrite length_app. simpl. lia.
Qed.

Lemma tree_view_raises_TypeError (kw : kwargs) (n : node) :
  forall e, tree_view mesh_tree_view kw n = Raise e -> e = TypeError.
Proof.
  induction n as [m | ms name IH | | n ms IHn IHms]
    using node_rect'
    with (Q := fun ms => forall len i e,
                 tree_view_loop (tree_view mesh_tree_view kw) len i ms = Raise e ->
                 e = TypeError).
  - intros e H. discriminate H.
  - intros e H. cbn [tree_view] in H.
    destruct (tree_view_loop _ _ _ ms) as [body | e'] eqn:E.
    + destruct name; [discriminate H |]. injection H as <-. reflexivity.
    + injection H as <-. apply (IH _ _ _ E).
  - intros len i e H. discriminate H.
  - intros len i e H. cbn [tree_view_loop] in H.
    destruct (tree_view mesh_tree_view kw n) as [v | e'] eqn:E.
    + cbn [bind] in H.
      destruct (tree_view_loop _ _ _ ms) as [rest | e''] eqn:E'.
      * discriminate H.
      * injection H as <-. apply (IHms _ _ _ E').
    + injection H as <-. apply IHn. reflexivity.
Qed.

(** C10: the tree view of a collection without a name is no string: it
    raises a [TypeError]; a collection that has a tree view has a name. *)
Theorem tree_view_needs_a_name (kw : kwargs) (ms : list node) :
  tree_view mesh_tree_view kw (Collection ms None) = Raise TypeError
  /\ forall name s,
       tree_view mesh_tree_view kw (Collection ms name) = Ok s ->
       exists nm, name = Some nm.
Proof.
  split.
  - destruct (tree_view mesh_tree_view kw (Collection ms None)) as [s | e] eqn:E.
    + cbn [tree_view] in E.
      destruct (tree_view_loop _ _ _ ms); discriminate E.
    + f_equal. apply (tree_view_raises_TypeError _ _ E).
  - intros name s H. cbn [tree_view] in H.
    destruct (tree_view_loop _ _ _ ms); [| discriminate H].
    destruct name as [nm |]; [| discriminate H].
    exists nm. reflexivity.
Qed.

End TreeView.

(** ** Negative indices *)

(** A negative index of a child counts from the end, as for any tuple. *)
Lemma indices_of_mesh_negative_index
  (ms : list node) (name : option string) (k : Z) :
  (- Z.of_nat (length ms) <= k < 0)%Z ->
  indices_of_mesh (Collection ms name) k
  = indices_of_mesh (Collection ms name) (Z.of_nat (length ms) + k).
Proof.
  intros Hk. unfold indices_of_mesh, tuple_slice_to, tuple_getitem.
  destruct (0 <=? k)%Z eqn:E; [apply Z.leb_le in E; lia |].
  destruct (0 <=? Z.of_nat (length ms) + k)%Z eqn:E';
    [| apply Z.leb_gt in E'; lia].
  reflexivity.
Qed.

(** ** The recorded ids are ids of faces of the collection *)

Lemma prefix_sum_bound (f : node -> nat) (ms : list node) (i : nat) (m : node) :
  nth_error ms i = Some m ->
  list_sum (map f (firstn i ms)) + f m <= list_sum (map f ms).
Proof.
  revert i. induction ms as [| a ms IH]; intros [| i] H; try discriminate H.
  - injection H as <-. simpl. lia.
  - simpl in H. apply IH in H. simpl. lia.
Qed.

Section FacesIdsRange.

Variable Plane : Type.
Variable mesh_clip : Plane -> Mesh -> Mesh * list Z.

(** What the clip of a leaf records are ids of faces of the leaf. *)
Hypothesis mesh_clip_in_range :
  forall plane m,
    Forall (fun id => (0 <= id < Z.of_nat (mesh_nb_faces m))%Z)
           (snd (mesh_clip plane m)).

(** Then what the clip of a collection records are ids of faces of the
    collection, as it was before the clip. *)
Lemma clip_faces_ids_in_range (plane : Plane) (n : node) :
  Forall (fun id => (0 <= id < Z.of_nat (nb_faces n))%Z)
         (snd (clip mesh_clip plane n)).
Proof.
  induction n as [m | ms name IH | | n ms IHn IHms]
    using node_rect'
    with (Q := Forall (fun n =>
                 Forall (fun id => (0 <= id < Z.of_nat (nb_faces n))%Z)
                        (snd (clip mesh_clip plane n)))).
  - cbn [clip nb_faces]. specialize (mesh_clip_in_range plane m).
    destruct (mesh_clip plane m) as [m' ids]. exact mesh_clip_in_range.
  - rewrite clip_collection, nb_faces_collection. cbn [snd].
    apply Forall_flat_map, Forall_forall. intros i _.
    unfold shifted_ids_of_child.
    destruct (nth_error ms i) as [m |] eqn:E; [| constructor].
    apply Forall_map.
    assert (Hm := Forall_forall
                    (fun n => Forall (fun id => (0 <= id < Z.of_nat (nb_faces n))%Z)
                                     (snd (clip mesh_clip plane n))) ms).
    apply proj1 in Hm. specialize (Hm IH m (nth_error_In _ _ E)).
    pose proof (prefix_sum_bound nb_faces _ _ E) as Hb.
    eapply Forall_impl; [| exact Hm].
    cbv beta. intros id Hid. lia.
  - constructor.
  - constructor; assumption.
Qed.

End FacesIdsRange.

(** ** The model on the sample trees *)

Lemma clip_leaves_no_empty_child_witness :
  Forall (fun m => 0 < nb_faces m /\ 0 < nb_vertices m)
         (_meshes (fst (clip keep_faces_under (float_of_int (-1)) house)))
  /\ Forall (fun m => 0 < nb_faces m /\ 0 < nb_vertices m)
            (_meshes (keep_immersed_part
                        (fun h m => fst (keep_faces_under h m))
                        (float_of_int 0) house))
  /\ nb_submeshes (fst (clip keep_faces_under (float_of_int (-1)) house)) = 0.
Proof.
  destruct (clip_leaves_no_empty_child
              keep_faces_under (fun h m => fst (keep_faces_under h m))
              (float_of_int (-1)) (float_of_int 0)
              [Leaf square; Leaf roof] (Some "AB"%string))
    as (Hclip & Hkeep & Hnone).
  split; [exact Hclip | split; [exact Hkeep |]].
  apply Hnone. repeat constructor.
Defined.

Lemma collections_equal_iff_children_equal_witness :
  __eq__ same_arrays sample_memory
         (CollectionAt 10 [MeshAt 0; MeshAt 1] (Some "AB"%string))
         (Object (CollectionAt 11 [MeshAt 2; MeshAt 1] None))
  = Some true
  /\ __eq__ same_arrays sample_memory
            (CollectionAt 10 [MeshAt 0; MeshAt 1] (Some "AB"%string))
            (Object (CollectionAt 11 [MeshAt 1; MeshAt 0] (Some "AB"%string)))
     = Some false
  /\ __eq__ same_arrays sample_memory
            (CollectionAt 12 [MeshAt 3; MeshAt 1] None)
            (Object (CollectionAt 12 [MeshAt 3; MeshAt 1] None))
     = Some true.
Proof.
  split; [| split].
  - destruct (collections_equal_iff_children_equal same_arrays sample_memory
                10 11 [MeshAt 0; MeshAt 1] [MeshAt 2; MeshAt 1]
                (Some "AB"%string) None) as (Hiff & _ & _).
    apply Hiff.
    constructor; [right; reflexivity |].
    constructor; [left; reflexivity | constructor].
  - destruct (collections_equal_iff_children_equal same_arrays sample_memory
                10 11 [MeshAt 0; MeshAt 1] [MeshAt 1; MeshAt 0]
                (Some "AB"%string) (Some "AB"%string)) as (_ & Hreorder & _).
    apply Hreorder.
    + apply perm_swap.
    + discriminate.
    + intros [| [| i]] [| [| j]] a b Hij Ha Hb;
        try (contradiction Hij; reflexivity);
        try (destruct i; discriminate Ha);
        try (destruct j; discriminate Hb);
        injection Ha as <-; injection Hb as <-; split; reflexivity.
  - destruct (collections_equal_iff_children_equal same_arrays sample_memory
                12 12 [MeshAt 3; MeshAt 1] [MeshAt 3; MeshAt 1] None None)
      as (_ & _ & Hself).
    exact Hself.
Defined.

(** C7, as the specification words it: two collections that hold the same
    children in a different order, here two equal squares that are two
    objects, compare equal. *)
Lemma reordered_equal_children_compare_equal :
  Permutation [MeshAt 0; MeshAt 2] [MeshAt 2; MeshAt 0]
  /\ [MeshAt 0; MeshAt 2] <> [MeshAt 2; MeshAt 0]
  /\ __eq__ same_arrays sample_memory
            (CollectionAt 10 [MeshAt 0; MeshAt 2] None)
            (Object (CollectionAt 11 [MeshAt 2; MeshAt 0] None))
     = Some true.
Proof.
  split; [apply perm_swap | split; [discriminate | reflexivity]].
Qed.

(** The leaf at the address 3 is not equal to itself, and the collection
    that holds it is. *)
Example collection_of_blur_equals_itself :
  py_eq same_arrays sample_memory (MeshAt 3) (MeshAt 3) = false
  /\ __eq__ same_arrays sample_memory
            (CollectionAt 12 [MeshAt 3] None)
            (Object (CollectionAt 12 [MeshAt 3] None))
     = Some true
  /\ __eq__ same_arrays sample_memory
            (CollectionAt 12 [MeshAt 3] None)
            (Object (CollectionAt 13 [MeshAt 4] None))
     = Some false.
Proof. vm_compute. repeat split. Qed.

Lemma center_of_mass_weighted_by_vertex_counts_witness :
  center_of_mass_of_nodes mean_of_vertices
    (Collection [Leaf square; Leaf square; Leaf roof] None)
  = Ok (NdArray
          (weighted_average [4; 4; 3]
             [mean_of_vertices square; mean_of_vertices square;
              mean_of_vertices roof]))
  /\ 11 = nb_vertices (Collection [Leaf square; Leaf square; Leaf roof] None).
Proof.
  apply (@center_of_mass_weighted_by_vertex_counts mean_of_vertices
           [Leaf square; Leaf square; Leaf roof] None
           [mean_of_vertices square; mean_of_vertices square;
            mean_of_vertices roof]).
  - discriminate.
  - repeat constructor.
Defined.

Lemma tree_view_branches_witness :
  tree_view (fun (_ : unit) m => mesh_name m) tt
    (Collection [house; Leaf square; house] (Some "top"%string))
  = Ok ("top" ++ newline
        ++ join newline
             (map (render_child " ├─" " │ ")
                  ["AB" ++ newline ++ " ├─A" ++ newline ++ " └─B"; "A"]
              ++ [render_child " └─" "   "
                    ("AB" ++ newline ++ " ├─A" ++ newline ++ " └─B")]))%string.
Proof.
  apply (@tree_view_branches unit (fun _ m => mesh_name m) tt
           [house; Leaf square] house "top"%string).
  - discriminate.
  - repeat constructor.
  - reflexivity.
Defined.

Lemma tree_view_needs_a_name_witness :
  tree_view (fun (_ : unit) m => mesh_name m) tt
    (Collection [Leaf square; Leaf roof] None) = Raise TypeError
  /\ exists nm, Some "AB"%string = Some nm.
Proof.
  destruct (tree_view_needs_a_name (fun (_ : unit) m => mesh_name m) tt
              [Leaf square; Leaf roof]) as [Hnone Hsome].
  split; [exact Hnone |].
  apply (Hsome (Some "AB"%string)
           ("AB" ++ newline ++ " ├─A" ++ newline ++ " └─B")%string).
  reflexivity.
Defined.

Example tree_view_of_nested_collections :
  tree_view (fun (_ : unit) m => mesh_name m) tt
    (Collection [house; Leaf square; house] (Some "top"%string))
  = Ok "top
 ├─AB
 │  ├─A
 │  └─B
 ├─A
 └─AB
    ├─A
    └─B"%string.
Proof. reflexivity. Qed.

Example faces_of_house :
  faces house = Ok [(0, 1, 2, 3)%Z; (4, 5, 6, 6)%Z; (6, 5, 4, 4)%Z].
Proof. reflexivity. Qed.

Example clip_shifts_faces_ids :
  snd (clip keep_faces_under (float_of_int 1)
         (Collection [Leaf roof; Leaf square; Leaf roof] None))
  = [0; 1; 2; 3; 4]%Z
  /\ snd (clip keep_faces_under (float_of_int 0)
            (Collection [Leaf roof; Leaf square; Leaf roof] None))
     = [2]%Z
  /\ nb_submeshes
       (fst (clip keep_faces_under (float_of_int 0)
               (Collection [Leaf roof; Leaf square; Leaf roof] None))) = 1.
Proof. vm_compute. repeat split. Qed.

Example center_of_mass_counts_duplicates :
  center_of_mass_of_nodes mean_of_vertices
    (Collection [Leaf square; Leaf square; Leaf roof] None)
  = Ok (NdArray (PrimFloat.div (float_of_int 6) (float_of_int 11),
                 PrimFloat.div (float_of_int 5) (float_of_int 11),
                 PrimFloat.div (float_of_int 3) (float_of_int 11))).
Proof. vm_compute. reflexivity. Qed.

(** * Further properties *)

(** ** Nesting is transparent *)

Lemma flat_map_flat_map (A B C : Type) (f : B -> list C) (g : A -> list B)
  (l : list A) :
  flat_map f (flat_map g l) = flat_map (fun a => flat_map f (g a)) l.
Proof.
  induction l as [| a l IH]; simpl; [reflexivity |].
  rewrite flat_map_app, IH. reflexivity.
Qed.

Lemma list_sum_flat_map (A B : Type) (f : B -> nat) (g : A -> list B)
  (l : list A) :
  list_sum (map f (flat_map g l))
  = list_sum (map (fun a => list_sum (map f (g a))) l).
Proof.
  induction l as [| a l IH]; simpl; [reflexivity |].
  rewrite map_app, list_sum_app, IH. reflexivity.
Qed.

(** The counts, leaf by leaf. *)
Lemma leaves_counts (n : node) :
  nb_vertices n = list_sum (map mesh_nb_vertices (leaves n))
  /\ nb_faces n = list_sum (map mesh_nb_faces (leaves n)).
Proof.
  induction n as [m | ms name IH | | n ms IHn IHms]
    using node_rect'
    with (Q := fun ms =>
                 list_sum (map nb_vertices ms)
                 = list_sum (map mesh_nb_vertices (flat_map leaves ms))
                 /\ list_sum (map nb_faces ms)
                    = list_sum (map mesh_nb_faces (flat_map leaves ms))).
  - simpl. split; lia.
  - rewrite nb_vertices_collection, nb_faces_collection. exact IH.
  - split; reflexivity.
  - destruct IHn as [Hv Hf], IHms as [Hvs Hfs].
    cbn [map flat_map]. rewrite !map_app, !list_sum_app.
    cbn [list_sum fold_right]. rewrite <- Hvs, <- Hfs, <- Hv, <- Hf.
    split; reflexivity.
Qed.

(** The counts of a tree are the sums over its leaves, whatever the
    nesting. *)
Theorem counts_are_sums_over_leaves (n : node) :
  nb_vertices n = list_sum (map mesh_nb_vertices (leaves n))
  /\ nb_faces n = list_sum (map mesh_nb_faces (leaves n)).
Proof. exact (leaves_counts n). Qed.


Lemma mapM_concatenate_property (A : Type) (p : Mesh -> list A)
  (ms : list node) :
  Forall (fun n =>
            concatenate_property p n
            = if no_empty_collection n
              then Ok (flat_map p (leaves n))
              else Raise ValueError) ms ->
  mapM (concatenate_property p) ms
  = if forallb no_empty_collection ms
    then Ok (map (fun n => flat_map p (leaves n)) ms)
    else Raise ValueError.
Proof.
  induction 1 as [| n ms Hn _ IH]; [reflexivity |].
  cbn [mapM forallb map]. rewrite Hn.
  destruct (no_empty_collection n); [| reflexivity].
  cbn [bind andb]. rewrite IH.
  destruct (forallb no_empty_collection ms); reflexivity.
Qed.

(** An array concatenated over the children is the concatenation of the
    arrays of the leaves, from left to right; numpy's [ValueError] comes
    out exactly when some collection of the tree has no child. *)
Lemma concatenate_property_leaves (A : Type) (p : Mesh -> list A) (n : node) :
  concatenate_property p n
  = if no_empty_collection n
    then Ok (flat_map p (leaves n))
    else Raise ValueError.
Proof.
  induction n as [m | ms name IH | | n ms IHn IHms]
    using node_rect'
    with (Q := Forall (fun n =>
                 concatenate_property p n
                 = if no_empty_collection n
                   then Ok (flat_map p (leaves n))
                   else Raise ValueError)).
  - simpl. rewrite app_nil_r. reflexivity.
  - change (concatenate_property p (Collection ms name))
      with (arrays <- mapM (concatenate_property p) ms ;;
            np_concatenate arrays).
    rewrite (@mapM_concatenate_property A p ms IH).
    destruct ms as [| m ms]; [reflexivity |].
    cbn [no_empty_collection leaves].
    destruct (forallb no_empty_collection (m :: ms)); [| reflexivity].
    cbn [bind map np_concatenate].
    rewrite flat_map_flat_map, (flat_map_concat_map _ (m :: ms)).
    reflexivity.
  - constructor.
  - constructor; assumption.
Qed.

Lemma vertices_concatenate_property (n : node) :
  vertices n = concatenate_property mesh_vertices n.
Proof. reflexivity. Qed.

(** The vertices, leaf by leaf. *)
Lemma vertices_leaves (n : node) :
  vertices n
  = if no_empty_collection n
    then Ok (flat_map mesh_vertices (leaves n))
    else Raise ValueError.
Proof.
  rewrite vertices_concatenate_property. apply concatenate_property_leaves.
Qed.

(** [vertices] is the concatenation of the vertex arrays of the leaves,
    from left to right, and raises [ValueError] exactly when some
    collection of the tree, the root included, has no child. *)
Theorem vertices_of_leaves (n : node) :
  vertices n
  = if no_empty_collection n
    then Ok (flat_map mesh_vertices (leaves n))
    else Raise ValueError.
Proof. exact (vertices_leaves n). Qed.


Lemma shift_face_twice (a b : nat) (f : face) :
  shift_face (Z.of_nat a) (shift_face (Z.of_nat b) f)
  = shift_face (Z.of_nat (a + b)) f.
Proof.
  destruct f as [[[x y] z] t]. unfold shift_face.
  rewrite Nat2Z.inj_add.
  f_equal; [f_equal; [f_equal |] |]; lia.
Qed.

Lemma shift_shifted_faces_of_leaves (a : nat) (ls : list Mesh) :
  forall b,
    shift_faces (Z.of_nat a) (shifted_faces_of_leaves b ls)
    = shifted_faces_of_leaves (a + b) ls.
Proof.
  induction ls as [| m ls IH]; intros b; [reflexivity |].
  cbn [shifted_faces_of_leaves]. unfold shift_faces in *.
  rewrite map_app, map_map, IH, Nat.add_assoc. f_equal.
  apply map_ext. intros f. apply shift_face_twice.
Qed.

Lemma shifted_faces_of_leaves_app (ls ls' : list Mesh) :
  forall acc,
    shifted_faces_of_leaves acc (ls ++ ls')
    = shifted_faces_of_leaves acc ls
      ++ shifted_faces_of_leaves
           (acc + list_sum (map mesh_nb_vertices ls)) ls'.
Proof.
  induction ls as [| m ls IH]; intros acc.
  - simpl. rewrite Nat.add_0_r. reflexivity.
  - cbn [app shifted_faces_of_leaves map].
    change (list_sum (mesh_nb_vertices m :: map mesh_nb_vertices ls))
      with (mesh_nb_vertices m + list_sum (map mesh_nb_vertices ls)).
    rewrite IH, <- app_assoc, Nat.add_assoc. reflexivity.
Qed.

Lemma faces_loop_leaves (ms : list node) :
  Forall (fun n =>
            faces n
            = if no_empty_collection n
              then Ok (shifted_faces_of_leaves 0 (leaves n))
              else Raise ValueError) ms ->
  forall acc,
    match zip_mapM (fun mesh nbv => fs <- faces mesh ;;
                                    Ok (shift_faces (Z.of_nat nbv) fs))
                   ms (acc :: accumulate_from acc (map nb_vertices ms)) with
    | Ok arrays =>
        forallb no_empty_collection ms = true
        /\ length arrays = length ms
        /\ concat arrays = shifted_faces_of_leaves acc (flat_map leaves ms)
    | Raise e => e = ValueError /\ forallb no_empty_collection ms = false
    end.
Proof.
  induction 1 as [| n ms Hn _ IH]; intros acc.
  - simpl. repeat split.
  - cbn [map accumulate_from zip_mapM forallb flat_map]. rewrite Hn.
    destruct (no_empty_collection n); [| split; reflexivity].
    cbn [bind andb]. specialize (IH (acc + nb_vertices n)).
    destruct (zip_mapM _ ms _) as [rest | e].
    + destruct IH as (Hall & Hlen & Hcat). cbn [bind].
      split; [exact Hall | split; [simpl; rewrite Hlen; reflexivity |]].
      cbn [concat]. rewrite Hcat, shifted_faces_of_leaves_app.
      rewrite shift_shifted_faces_of_leaves, Nat.add_0_r.
      rewrite (proj1 (leaves_counts n)). reflexivity.
    + exact IH.
Qed.

(** The faces, leaf by leaf. *)
Lemma faces_leaves (n : node) :
  faces n
  = if no_empty_collection n
    then Ok (shifted_faces_of_leaves 0 (leaves n))
    else Raise ValueError.
Proof.
  induction n as [m | ms name IH | | n ms IHn IHms]
    using node_rect'
    with (Q := Forall (fun n =>
                 faces n
                 = if no_empty_collection n
                   then Ok (shifted_faces_of_leaves 0 (leaves n))
                   else Raise ValueError)).
  - simpl. unfold shift_faces. rewrite app_nil_r.
    rewrite <- (map_id (mesh_faces m)) at 1. f_equal.
    apply map_ext. intros [[[a b] c] d]. unfold shift_face.
    change (Z.of_nat 0) with 0%Z. rewrite !Z.add_0_r. reflexivity.
  - cbn [faces]. unfold accumulate. rewrite zip_mapM_removelast.
    pose proof (@faces_loop_leaves ms IH 0) as H.
    destruct (zip_mapM _ ms _) as [arrays | e].
    + destruct H as (Hall & Hlen & Hcat).
      destruct ms as [| m ms].
      * destruct arrays; [reflexivity | discriminate Hlen].
      * cbn [no_empty_collection leaves]. rewrite Hall.
        destruct arrays as [| a arrays]; [discriminate Hlen |].
        cbn [bind np_concatenate]. rewrite Hcat. reflexivity.
    + destruct H as [-> Hall]. cbn [bind].
      destruct ms as [| m ms]; [reflexivity |].
      cbn [no_empty_collection]. rewrite Hall. reflexivity.
  - constructor.
  - constructor; assumption.
Qed.

(** [faces] is the concatenation of the face arrays of the leaves, from
    left to right, each shifted by the number of vertices of the leaves
    before it: the shifts of nested collections add up.  It raises
    [ValueError] exactly when some collection of the tree has no child. *)
Theorem faces_of_leaves (n : node) :
  faces n
  = if no_empty_collection n
    then Ok (shifted_faces_of_leaves 0 (leaves n))
    else Raise ValueError.
Proof. exact (faces_leaves n). Qed.


(** ** The shifted faces point to the same vertices *)

Lemma face_in_range_shift (acc n total : nat) (f : face) :
  acc + n <= total ->
  face_in_range n f ->
  face_in_range total (shift_face (Z.of_nat acc) f).
Proof.
  destruct f as [[[a b] c] d]. unfold face_in_range, shift_face.
  intros Hle H. lia.
Qed.

Lemma shifted_faces_of_leaves_in_range (ls : list Mesh) :
  Forall valid_mesh ls ->
  forall acc,
    Forall (face_in_range (acc + list_sum (map mesh_nb_vertices ls)))
           (shifted_faces_of_leaves acc ls).
Proof.
  induction 1 as [| m ls Hm _ IH]; intros acc; [constructor |].
  cbn [shifted_faces_of_leaves map].
  change (list_sum (mesh_nb_vertices m :: map mesh_nb_vertices ls))
    with (mesh_nb_vertices m + list_sum (map mesh_nb_vertices ls)).
  apply Forall_app. split.
  - unfold shift_faces. apply Forall_map.
    eapply Forall_impl; [| exact Hm].
    intros f Hf. eapply face_in_range_shift; [| exact Hf]. lia.
  - rewrite Nat.add_assoc. apply IH.
Qed.

(** When the faces of every leaf point into the vertices of that leaf, the
    faces of the collection point into the vertices of the collection. *)
Theorem faces_point_into_vertices (n : node) (fs : list face) :
  Forall valid_mesh (leaves n) ->
  faces n = Ok fs ->
  Forall (face_in_range (nb_vertices n)) fs.
Proof.
  intros Hvalid H. rewrite faces_leaves in H.
  destruct (no_empty_collection n); [| discriminate H].
  injection H as <-.
  rewrite (proj1 (leaves_counts n)).
  apply (shifted_faces_of_leaves_in_range Hvalid 0).
Qed.

Lemma face_corners_shift (pre vm rest : list vec3) (f : face) :
  face_in_range (length vm) f ->
  face_corners (pre ++ vm ++ rest) (shift_face (Z.of_nat (length pre)) f)
  = face_corners vm f.
Proof.
  destruct f as [[[a b] c] d]. unfold face_in_range, shift_face, face_corners.
  intros (Ha & Hb & Hc & Hd).
  assert (E : forall x, (0 <= x < Z.of_nat (length vm))%Z ->
                        nth_error (pre ++ vm ++ rest)
                                  (Z.to_nat (x + Z.of_nat (length pre)))
                        = nth_error vm (Z.to_nat x)).
  { intros x Hx.
    replace (Z.to_nat (x + Z.of_nat (length pre)))
      with (length pre + Z.to_nat x) by lia.
    rewrite nth_error_app2 by lia.
    replace (length pre + Z.to_nat x - length pre) with (Z.to_nat x) by lia.
    apply nth_error_app1. lia. }
  rewrite !E by assumption. reflexivity.
Qed.

Lemma face_corners_of_leaves (ls : list Mesh) :
  Forall valid_mesh ls ->
  forall pre,
    map (face_corners (pre ++ flat_map mesh_vertices ls))
        (shifted_faces_of_leaves (length pre) ls)
    = flat_map (fun m => map (face_corners (mesh_vertices m)) (mesh_faces m)) ls.
Proof.
  induction 1 as [| m ls Hm _ IH]; intros pre; [reflexivity |].
  cbn [flat_map shifted_faces_of_leaves]. rewrite map_app. f_equal.
  - unfold shift_faces. rewrite map_map.
    apply map_ext_in. intros f Hf. apply face_corners_shift.
    unfold valid_mesh in Hm. rewrite Forall_forall in Hm. apply Hm. exact Hf.
  - specialize (IH (pre ++ mesh_vertices m)).
    rewrite length_app, <- app_assoc in IH. exact IH.
Qed.

(** The collection describes the same faces in space as its leaves do:
    looking up the corners of its faces in its vertices gives the corners
    of the faces of the leaves, leaf after leaf. *)
Theorem faces_keep_their_corners (n : node) (vs : list vec3) (fs : list face) :
  Forall valid_mesh (leaves n) ->
  vertices n = Ok vs ->
  faces n = Ok fs ->
  map (face_corners vs) fs
  = flat_map (fun m => map (face_corners (mesh_vertices m)) (mesh_faces m))
             (leaves n).
Proof.
  intros Hvalid Hv Hf. rewrite vertices_leaves in Hv.
  rewrite faces_leaves in Hf.
  destruct (no_empty_collection n); [| discriminate Hv].
  injection Hv as <-. injection Hf as <-.
  apply (face_corners_of_leaves Hvalid []).
Qed.

(** ** Where the center of mass and the merged mesh exist *)

Section Definedness.

Variable mesh_center_of_mass_of_nodes : Mesh -> vec3.
Variable Mesh_new : list vec3 -> list face -> option string -> Mesh.
Variable mesh_merge_duplicates : Mesh -> Mesh.
Variable mesh_heal_triangles : Mesh -> Mesh.

Lemma center_of_mass_loop_defined (ms : list node) :
  Forall (fun n =>
            if no_empty_collection n
            then exists c,
                center_of_mass_of_nodes mesh_center_of_mass_of_nodes n
                = Ok (NdArray c)
            else center_of_mass_of_nodes mesh_center_of_mass_of_nodes n
                 = Raise ZeroDivisionError) ms ->
  if forallb no_empty_collection ms
  then exists cs,
      Forall2 (fun m c =>
                 center_of_mass_of_nodes mesh_center_of_mass_of_nodes m
                 = Ok (NdArray c)) ms cs
  else mapM (fun mesh =>
               c <- center_of_mass_of_nodes mesh_center_of_mass_of_nodes mesh ;;
               Ok (py_int_mul (Z.of_nat (nb_vertices mesh)) c)) ms
       = Raise ZeroDivisionError.
Proof.
  induction 1 as [| n ms Hn _ IH]; [exists []; constructor |].
  cbn [forallb mapM].
  destruct (no_empty_collection n).
  - destruct Hn as [c Hc]. cbn [andb].
    destruct (forallb no_empty_collection ms).
    + destruct IH as [cs Hcs]. exists (c :: cs). constructor; assumption.
    + rewrite Hc. cbn [bind]. rewrite IH. reflexivity.
  - rewrite Hn. reflexivity.
Qed.

(** The center of mass exists or raises. *)
Lemma center_of_mass_leaves (n : node) :
  if no_empty_collection n
  then exists c,
      center_of_mass_of_nodes mesh_center_of_mass_of_nodes n = Ok (NdArray c)
  else center_of_mass_of_nodes mesh_center_of_mass_of_nodes n
       = Raise ZeroDivisionError.
Proof.
  induction n as [m | ms name IH | | n ms IHn IHms]
    using node_rect'
    with (Q := Forall (fun n =>
                 if no_empty_collection n
                 then exists c,
                     center_of_mass_of_nodes mesh_center_of_mass_of_nodes n
                     = Ok (NdArray c)
                 else center_of_mass_of_nodes mesh_center_of_mass_of_nodes n
                      = Raise ZeroDivisionError)).
  - simpl. eexists. reflexivity.
  - destruct ms as [| m ms]; [reflexivity |].
    apply center_of_mass_loop_defined in IH.
    cbn [no_empty_collection].
    destruct (forallb no_empty_collection (m :: ms)).
    + destruct IH as [cs Hcs].
      cbn [center_of_mass_of_nodes].
      rewrite (@center_of_mass_terms mesh_center_of_mass_of_nodes _ _ Hcs).
      cbn [bind]. rewrite py_sum_values_arrays.
      * eexists. reflexivity.
      * inversion Hcs; subst. simpl. discriminate.
    + cbn [center_of_mass_of_nodes]. rewrite IH. reflexivity.
  - constructor.
  - constructor; assumption.
Qed.

(** The center of mass is an array when no collection of the tree is
    without children, and raises [ZeroDivisionError] otherwise: a vertex
    count of zero alone, with children, raises nothing. *)
Theorem center_of_mass_defined (n : node) :
  if no_empty_collection n
  then exists c,
      center_of_mass_of_nodes mesh_center_of_mass_of_nodes n = Ok (NdArray c)
  else center_of_mass_of_nodes mesh_center_of_mass_of_nodes n
       = Raise ZeroDivisionError.
Proof. exact (center_of_mass_leaves n). Qed.


(** [merged] builds its mesh from the vertices of the leaves and their
    shifted faces, under the given name or else the name of the collection;
    on a tree with a collection without children it raises [ValueError]. *)
Theorem merged_of_leaves (ms : list node) (self_name name : option string) :
  merged Mesh_new mesh_merge_duplicates mesh_heal_triangles name
         (Collection ms self_name)
  = if no_empty_collection (Collection ms self_name)
    then Ok (mesh_heal_triangles
               (mesh_merge_duplicates
                  (Mesh_new
                     (flat_map mesh_vertices (flat_map leaves ms))
                     (shifted_faces_of_leaves 0 (flat_map leaves ms))
                     match name with
                     | None => self_name
                     | Some _ => name
                     end)))
    else Raise ValueError.
Proof.
  unfold merged. rewrite vertices_leaves, faces_leaves.
  destruct (no_empty_collection (Collection ms self_name)); reflexivity.
Qed.

End Definedness.

(** ** The slices of the children *)

(** An index of a child beyond the tuple, on either side, raises
    [IndexError]. *)
Theorem indices_of_mesh_out_of_range
  (ms : list node) (name : option string) (k : Z) :
  (k < - Z.of_nat (length ms) \/ Z.of_nat (length ms) <= k)%Z ->
  indices_of_mesh (Collection ms name) k = Raise IndexError.
Proof.
  intros Hk. unfold indices_of_mesh, tuple_getitem.
  destruct (0 <=? k)%Z eqn:E.
  - apply Z.leb_le in E.
    destruct (k <? 0)%Z eqn:E'; [apply Z.ltb_lt in E'; lia |].
    assert (Hnone : nth_error ms (Z.to_nat k) = None)
      by (apply nth_error_None; lia).
    rewrite Hnone. reflexivity.
  - apply Z.leb_gt in E.
    destruct (Z.of_nat (length ms) + k <? 0)%Z eqn:E';
      [reflexivity | apply Z.ltb_ge in E'; lia].
Qed.

Lemma tuple_getitem_nat_inv (A : Type) (t : list A) (i : nat) (a : A) :
  tuple_getitem t (Z.of_nat i) = Ok a -> nth_error t i = Some a.
Proof.
  unfold tuple_getitem.
  destruct (0 <=? Z.of_nat i)%Z eqn:E; [| apply Z.leb_gt in E; lia].
  destruct (Z.of_nat i <? 0)%Z; [discriminate |].
  rewrite Nat2Z.id. destruct (nth_error t i); [| discriminate].
  intros H. injection H as <-. reflexivity.
Qed.

Lemma firstn_succ_nth_error (A : Type) (l : list A) (i : nat) (a : A) :
  nth_error l i = Some a -> firstn (S i) l = firstn i l ++ [a].
Proof.
  revert i. induction l as [| x l IH]; intros [| i] H; try discriminate H.
  - injection H as <-. reflexivity.
  - simpl in H. cbn [firstn app]. rewrite <- (IH i H). reflexivity.
Qed.

Lemma indices_of_mesh_nat_inv
  (ms : list node) (name : option string) (i : nat) (s : slice) :
  indices_of_mesh (Collection ms name) (Z.of_nat i) = Ok s ->
  exists mi,
    nth_error ms i = Some mi
    /\ s = Slice (list_sum (map nb_faces (firstn i ms)))
                 (list_sum (map nb_faces (firstn i ms)) + nb_faces mi).
Proof.
  unfold indices_of_mesh. rewrite tuple_slice_to_nat, py_sum_list_sum.
  intros H. bind_inv H as mi Hmi. injection H as <-.
  exists mi. split; [apply tuple_getitem_nat_inv; exact Hmi | reflexivity].
Qed.

(** The slices of the children tile the faces: the first starts at [0],
    each next one starts where the one before stops, and the last one,
    at index [-1], stops at [nb_faces]. *)
Theorem indices_of_mesh_tile (ms : list node) (name : option string) :
  (forall s, indices_of_mesh (Collection ms name) 0 = Ok s ->
             slice_start s = 0)
  /\ (forall i s s',
        indices_of_mesh (Collection ms name) (Z.of_nat i) = Ok s ->
        indices_of_mesh (Collection ms name) (Z.of_nat (S i)) = Ok s' ->
        slice_start s' = slice_stop s)
  /\ (forall s, indices_of_mesh (Collection ms name) (-1) = Ok s ->
                slice_stop s = nb_faces (Collection ms name)).
Proof.
  split; [| split].
  - intros s H. apply (indices_of_mesh_nat_inv ms name 0) in H.
    destruct H as (mi & _ & ->). reflexivity.
  - intros i s s' H H'.
    apply indices_of_mesh_nat_inv in H. destruct H as (mi & Hmi & ->).
    apply indices_of_mesh_nat_inv in H'. destruct H' as (mj & _ & ->).
    cbn [slice_start slice_stop].
    rewrite (firstn_succ_nth_error _ _ Hmi), map_app, list_sum_app.
    simpl. lia.
  - intros s H.
    destruct ms as [| m ms]; [discriminate H |].
    rewrite indices_of_mesh_negative_index in H by (simpl length; lia).
    replace (Z.of_nat (length (m :: ms)) + -1)%Z
      with (Z.of_nat (length ms)) in H by (simpl length; lia).
    apply indices_of_mesh_nat_inv in H. destruct H as (mi & Hmi & ->).
    cbn [slice_stop]. rewrite nb_faces_collection.
    rewrite <- (firstn_all (m :: ms)) at 2.
    change (length (m :: ms)) with (S (length ms)).
    rewrite (firstn_succ_nth_error _ _ Hmi), map_app, list_sum_app.
    simpl. lia.
Qed.

Lemma getitem_slice_concat (A : Type) (g : node -> list A) (ms : list node) :
  (forall n, length (g n) = nb_faces n) ->
  forall i mi,
    nth_error ms i = Some mi ->
    getitem_slice (concat (map g ms))
      (Slice (list_sum (map nb_faces (firstn i ms)))
             (list_sum (map nb_faces (firstn i ms)) + nb_faces mi))
    = g mi.
Proof.
  intros Hlen. induction ms as [| m ms IH]; intros [| i] mi H;
    try discriminate H.
  - injection H as <-. cbn [firstn map concat].
    apply getitem_slice_head. symmetry. apply Hlen.
  - cbn [nth_error] in H. cbn [firstn map concat].
    change (list_sum (nb_faces m :: map nb_faces (firstn i ms)))
      with (nb_faces m + list_sum (map nb_faces (firstn i ms))).
    rewrite getitem_slice_tail by (symmetry; apply Hlen).
    apply IH. exact H.
Qed.

Lemma no_empty_collection_children (ms : list node) (name : option string) :
  no_empty_collection (Collection ms name) = true ->
  forallb no_empty_collection ms = true.
Proof. destruct ms; [discriminate | intros H; exact H]. Qed.

Lemma length_flat_map_sum (A B : Type) (p : A -> list B) (l : list A) :
  length (flat_map p l) = list_sum (map (fun a => length (p a)) l).
Proof.
  induction l as [| a l IH]; simpl; [reflexivity |].
  rewrite length_app, IH. reflexivity.
Qed.

(** For a leaf array with one row per face, the array of the collection
    sliced by [indices_of_mesh(i)] is the array of the child [i]. *)
Lemma concatenate_property_slice (A : Type) (p : Mesh -> list A)
  (ms : list node) (name : option string) (i : nat) (mi : node)
  (s : slice) (a : list A) :
  (forall m, length (p m) = mesh_nb_faces m) ->
  nth_error ms i = Some mi ->
  indices_of_mesh (Collection ms name) (Z.of_nat i) = Ok s ->
  concatenate_property p (Collection ms name) = Ok a ->
  concatenate_property p mi = Ok (getitem_slice a s).
Proof.
  intros Hp Hmi Hs Ha.
  apply indices_of_mesh_nat_inv in Hs. destruct Hs as (mi' & Hmi' & ->).
  rewrite Hmi in Hmi'. injection Hmi' as <-.
  rewrite concatenate_property_leaves in Ha.
  destruct (no_empty_collection (Collection ms name)) eqn:Hne;
    [| discriminate Ha].
  injection Ha as <-.
  apply no_empty_collection_children in Hne.
  rewrite forallb_forall in Hne.
  rewrite concatenate_property_leaves, (Hne mi (nth_error_In _ _ Hmi)).
  f_equal.
  change (leaves (Collection ms name)) with (flat_map leaves ms).
  rewrite flat_map_flat_map.
  rewrite (flat_map_concat_map (fun n => flat_map p (leaves n)) ms).
  symmetry.
  apply (@getitem_slice_concat A (fun n => flat_map p (leaves n)) ms);
    [| exact Hmi].
  intros n. rewrite length_flat_map_sum.
  rewrite (proj2 (leaves_counts n)).
  f_equal. apply map_ext. exact Hp.
Qed.

Section FaceArrays.

Variable mesh_faces_normals : Mesh -> list vec3.
Variable mesh_faces_areas : Mesh -> list float.
Variable mesh_faces_centers : Mesh -> list vec3.
Variable mesh_faces_radiuses : Mesh -> list float.

(** Every leaf has one normal, one area, one center and one radius per
    face. *)
Hypothesis one_normal_per_face :
  forall m, length (mesh_faces_normals m) = mesh_nb_faces m.
Hypothesis one_area_per_face :
  forall m, length (mesh_faces_areas m) = mesh_nb_faces m.
Hypothesis one_center_per_face :
  forall m, length (mesh_faces_centers m) = mesh_nb_faces m.
Hypothesis one_radius_per_face :
  forall m, length (mesh_faces_radiuses m) = mesh_nb_faces m.

(** Then [indices_of_mesh(i)] cuts the share of the child [i] out of each
    per-face array of the collection: the slice of [faces_normals],
    [faces_areas], [faces_centers] and [faces_radiuses] is that array of
    the child. *)
Theorem indices_of_mesh_slices_face_arrays
  (ms : list node) (name : option string) (i : nat) (mi : node) (s : slice) :
  nth_error ms i = Some mi ->
  indices_of_mesh (Collection ms name) (Z.of_nat i) = Ok s ->
  (forall a, faces_normals mesh_faces_normals (Collection ms name) = Ok a ->
             faces_normals mesh_faces_normals mi = Ok (getitem_slice a s))
  /\ (forall a, faces_areas mesh_faces_areas (Collection ms name) = Ok a ->
                faces_areas mesh_faces_areas mi = Ok (getitem_slice a s))
  /\ (forall a, faces_centers mesh_faces_centers (Collection ms name) = Ok a ->
                faces_centers mesh_faces_centers mi = Ok (getitem_slice a s))
  /\ (forall a, faces_radiuses mesh_faces_radiuses (Collection ms name) = Ok a ->
                faces_radiuses mesh_faces_radiuses mi = Ok (getitem_slice a s)).
Proof.
  intros Hmi Hs. unfold faces_normals, faces_areas, faces_centers, faces_radiuses.
  repeat split; intros a Ha;
    eapply concatenate_property_slice; eauto.
Qed.

End FaceArrays.

(** ** After a clip *)

Lemma nb_faces_no_children (name : option string) :
  nb_faces (Collection [] name) = 0.
Proof. reflexivity. Qed.

Lemma pruned_no_empty_collection (ms : list node) (name : option string) :
  Forall (fun m => 0 < nb_faces m -> no_empty_collection m = true) ms ->
  no_empty_collection (prune_empty_meshes (Collection ms name))
  = negb (nb_submeshes (prune_empty_meshes (Collection ms name)) =? 0).
Proof.
  intros H. cbn [prune_empty_meshes nb_submeshes].
  set (keep := fun mesh => (0 <? nb_faces mesh) && (0 <? nb_vertices mesh)).
  assert (Hall : forallb no_empty_collection (filter keep ms) = true).
  { apply forallb_forall. intros x Hx. apply filter_In in Hx.
    destruct Hx as [Hin Hk]. unfold keep in Hk.
    apply andb_true_iff in Hk. destruct Hk as [Hf _].
    rewrite Forall_forall in H. apply (H x Hin).
    apply Nat.ltb_lt. exact Hf. }
  destruct (filter keep ms) as [| x kept]; [reflexivity |].
  cbn [no_empty_collection]. rewrite Hall. reflexivity.
Qed.

Lemma nb_faces_positive_children (ms : list node) (name : option string) :
  0 < nb_faces (Collection ms name) -> ms <> [].
Proof. intros H ->. rewrite nb_faces_no_children in H. lia. Qed.

Section AfterClip.

Variable kwargs : Type.
Variable Plane : Type.
Variable mesh_clip : Plane -> Mesh -> Mesh * list Z.
Variable mesh_keep_immersed_part : kwargs -> Mesh -> Mesh.
Variable mesh_center_of_mass_of_nodes : Mesh -> vec3.

Lemma clip_no_empty_collection (plane : Plane) (n : node) :
  0 < nb_faces (fst (clip mesh_clip plane n)) ->
  no_empty_collection (fst (clip mesh_clip plane n)) = true.
Proof.
  induction n as [m | ms name IH | | n ms IHn IHms]
    using node_rect'
    with (Q := Forall (fun n =>
                 0 < nb_faces (fst (clip mesh_clip plane n)) ->
                 no_empty_collection (fst (clip mesh_clip plane n)) = true)).
  - intros _. cbn [clip]. destruct (mesh_clip plane m). reflexivity.
  - rewrite clip_collection. cbn [fst]. intros Hpos.
    rewrite pruned_no_empty_collection.
    + cbn [prune_empty_meshes nb_submeshes] in *.
      apply nb_faces_positive_children in Hpos.
      destruct (filter _ _); [contradiction Hpos; reflexivity | reflexivity].
    + apply Forall_map. exact IH.
  - constructor.
  - constructor; assumption.
Qed.

Lemma keep_immersed_part_no_empty_collection (kw : kwargs) (n : node) :
  0 < nb_faces (keep_immersed_part mesh_keep_immersed_part kw n) ->
  no_empty_collection (keep_immersed_part mesh_keep_immersed_part kw n) = true.
Proof.
  induction n as [m | ms name IH | | n ms IHn IHms]
    using node_rect'
    with (Q := Forall (fun n =>
                 0 < nb_faces (keep_immersed_part mesh_keep_immersed_part kw n) ->
                 no_empty_collection
                   (keep_immersed_part mesh_keep_immersed_part kw n) = true)).
  - intros _. reflexivity.
  - cbn [keep_immersed_part]. intros Hpos.
    rewrite pruned_no_empty_collection.
    + cbn [prune_empty_meshes nb_submeshes] in *.
      apply nb_faces_positive_children in Hpos.
      destruct (filter _ _); [contradiction Hpos; reflexivity | reflexivity].
    + apply Forall_map. exact IH.
  - constructor.
  - constructor; assumption.
Qed.

Lemma arrays_exist_iff_children
  (c : node) :
  no_empty_collection c = negb (nb_submeshes c =? 0) ->
  (nb_submeshes c = 0 ->
   vertices c = Raise ValueError
   /\ faces c = Raise ValueError
   /\ center_of_mass_of_nodes mesh_center_of_mass_of_nodes c
      = Raise ZeroDivisionError)
  /\ (0 < nb_submeshes c ->
      exists vs fs com,
        vertices c = Ok vs /\ faces c = Ok fs
        /\ center_of_mass_of_nodes mesh_center_of_mass_of_nodes c
           = Ok (NdArray com)).
Proof.
  intros H.
  pose proof (center_of_mass_leaves mesh_center_of_mass_of_nodes c) as Hc.
  rewrite vertices_leaves, faces_leaves. split.
  - intros H0. rewrite H0 in H. simpl in H. rewrite H in *.
    repeat split. exact Hc.
  - intros Hpos.
    destruct (nb_submeshes c =? 0) eqn:E; [apply Nat.eqb_eq in E; lia |].
    simpl in H. rewrite H in *. destruct Hc as [com Hcom].
    do 3 eexists. repeat split. exact Hcom.
Qed.

(** After [clip], no collection left below the root is without children.
    So the arrays and the center of mass of the clipped collection exist
    as soon as one child is left, and when none is left [vertices] and
    [faces] raise [ValueError] and the center of mass
    [ZeroDivisionError]. *)
Theorem clipped_arrays_exist_iff_child_left
  (plane : Plane) (ms : list node) (name : option string) :
  let c := fst (clip mesh_clip plane (Collection ms name)) in
  (nb_submeshes c = 0 ->
   vertices c = Raise ValueError
   /\ faces c = Raise ValueError
   /\ center_of_mass_of_nodes mesh_center_of_mass_of_nodes c
      = Raise ZeroDivisionError)
  /\ (0 < nb_submeshes c ->
      exists vs fs com,
        vertices c = Ok vs /\ faces c = Ok fs
        /\ center_of_mass_of_nodes mesh_center_of_mass_of_nodes c
           = Ok (NdArray com)).
Proof.
  intros c. apply arrays_exist_iff_children. subst c.
  rewrite clip_collection. cbn [fst].
  apply pruned_no_empty_collection, Forall_map, Forall_forall.
  intros m _. apply clip_no_empty_collection.
Qed.

(** The same after [keep_immersed_part]. *)
Theorem immersed_arrays_exist_iff_child_left
  (kw : kwargs) (ms : list node) (name : option string) :
  let c := keep_immersed_part mesh_keep_immersed_part kw (Collection ms name) in
  (nb_submeshes c = 0 ->
   vertices c = Raise ValueError
   /\ faces c = Raise ValueError
   /\ center_of_mass_of_nodes mesh_center_of_mass_of_nodes c
      = Raise ZeroDivisionError)
  /\ (0 < nb_submeshes c ->
      exists vs fs com,
        vertices c = Ok vs /\ faces c = Ok fs
        /\ center_of_mass_of_nodes mesh_center_of_mass_of_nodes c
           = Ok (NdArray com)).
Proof.
  intros c. apply arrays_exist_iff_children. subst c.
  cbn [keep_immersed_part].
  apply pruned_no_empty_collection, Forall_map, Forall_forall.
  intros m _. apply keep_immersed_part_no_empty_collection.
Qed.

End AfterClip.

(** ** Pruning *)

Lemma filter_twice (A : Type) (f : A -> bool) (l : list A) :
  filter f (filter f l) = filter f l.
Proof.
  induction l as [| a l IH]; simpl; [reflexivity |].
  destruct (f a) eqn:E; simpl; [rewrite E, IH |]; auto.
Qed.

(** Pruning a second time changes nothing. *)
Theorem prune_empty_meshes_twice (self : node) :
  prune_empty_meshes (prune_empty_meshes self) = prune_empty_meshes self.
Proof.
  destruct self as [m | ms name]; [reflexivity |].
  cbn [prune_empty_meshes]. rewrite filter_twice. reflexivity.
Qed.

Lemma valid_leaves_no_vertices_no_faces (ls : list Mesh) :
  Forall valid_mesh ls ->
  list_sum (map mesh_nb_vertices ls) = 0 ->
  list_sum (map mesh_nb_faces ls) = 0.
Proof.
  induction 1 as [| m ls Hm _ IH]; [reflexivity |].
  cbn [map].
  change (list_sum (mesh_nb_vertices m :: map mesh_nb_vertices ls))
    with (mesh_nb_vertices m + list_sum (map mesh_nb_vertices ls)).
  change (list_sum (mesh_nb_faces m :: map mesh_nb_faces ls))
    with (mesh_nb_faces m + list_sum (map mesh_nb_faces ls)).
  intros H0. rewrite IH by lia.
  unfold valid_mesh in Hm. unfold mesh_nb_faces.
  destruct (mesh_faces m) as [| f fs]; [reflexivity |].
  inversion Hm as [| f' fs' Hf _]; subst.
  destruct f as [[[a b] c] d]. unfold face_in_range in Hf. lia.
Qed.

Lemma valid_no_vertices_no_faces (n : node) :
  Forall valid_mesh (leaves n) -> nb_vertices n = 0 -> nb_faces n = 0.
Proof.
  destruct (leaves_counts n) as [-> ->].
  apply valid_leaves_no_vertices_no_faces.
Qed.

(** When the faces of every leaf point into the vertices of that leaf,
    pruning loses no face: the children it drops have none. *)
Theorem prune_empty_meshes_keeps_faces (ms : list node) (name : option string) :
  Forall valid_mesh (leaves (Collection ms name)) ->
  nb_faces (prune_empty_meshes (Collection ms name))
  = nb_faces (Collection ms name).
Proof.
  cbn [prune_empty_meshes leaves]. rewrite !nb_faces_collection.
  induction ms as [| m ms IH]; intros Hvalid; [reflexivity |].
  cbn [flat_map] in Hvalid. apply Forall_app in Hvalid.
  destruct Hvalid as [Hm Hms].
  cbn [filter map].
  change (list_sum (nb_faces m :: map nb_faces ms))
    with (nb_faces m + list_sum (map nb_faces ms)).
  destruct (0 <? nb_faces m) eqn:Ef.
  - destruct (0 <? nb_vertices m) eqn:Ev; cbn [andb].
    + cbn [map].
      change (list_sum (nb_faces m :: map nb_faces
                          (filter (fun mesh => (0 <? nb_faces mesh)
                                               && (0 <? nb_vertices mesh)) ms)))
        with (nb_faces m + list_sum (map nb_faces
                          (filter (fun mesh => (0 <? nb_faces mesh)
                                               && (0 <? nb_vertices mesh)) ms))).
      rewrite (IH Hms). reflexivity.
    + apply Nat.ltb_ge in Ev.
      rewrite (IH Hms), (valid_no_vertices_no_faces m Hm) by lia.
      reflexivity.
  - apply Nat.ltb_ge in Ef. cbn [andb]. rewrite (IH Hms). lia.
Qed.

(** ** Constructor, again *)

(** The constructor succeeds exactly on sequences of meshes and
    collections, and the collection it makes has these children, in the
    order given, and the name given. *)
Theorem init_accepts_meshes_and_collections
  (meshes : list pyobject) (name : option string) (c : node) :
  __init__ meshes name = Ok c
  <-> exists ns, meshes = map MeshLike ns /\ c = Collection ns name.
Proof.
  split.
  - unfold __init__. intros H. bind_inv H as ns Hns. injection H as <-.
    exists ns. split; [| reflexivity].
    apply mapM_Ok_Forall2 in Hns.
    induction Hns as [| o n meshes ns Ho _ IH]; [reflexivity |].
    cbn [map]. rewrite <- IH. f_equal.
    destruct o as [n' | t]; [| discriminate Ho].
    destruct n'; simpl in Ho; injection Ho as <-; reflexivity.
  - intros (ns & -> & ->). apply init_of_nodes.
Qed.

(** ** Volume *)

Lemma fold_py_add_floats (xs : list float) (x : float) :
  fold_left py_add (map PyFloat xs) (PyFloat x)
  = PyFloat (fold_left PrimFloat.add xs x).
Proof.
  revert x. induction xs as [| y xs IH]; intros x; simpl;
    [reflexivity | apply IH].
Qed.

(** The volume of a collection of leaves is the sum of their volumes,
    added up from left to right from zero, as a float. *)
Theorem volume_of_leaves (mesh_volume : Mesh -> float)
  (ls : list Mesh) (name : option string) :
  ls <> [] ->
  volume mesh_volume (Collection (map Leaf ls) name)
  = PyFloat (fold_left PrimFloat.add (map mesh_volume ls) zero).
Proof.
  intros Hne. cbn [volume]. rewrite map_map. cbn [volume].
  destruct ls as [| m ls]; [contradiction Hne; reflexivity |].
  unfold py_sum_values. cbn [map fold_left py_add].
  rewrite float_of_int_0, <- (map_map mesh_volume PyFloat).
  apply fold_py_add_floats.
Qed.

(** ** Equality is an equivalence when the equality of leaves is one *)

Lemma list_all2_eq (A : Type) (f : A -> A -> bool) (l : list A) :
  Forall (fun a => forall b, f a b = true -> a = b) l ->
  forall l', list_all2 f l l' = true -> l = l'.
Proof.
  induction 1 as [| a l Ha _ IH]; intros [| b l']; simpl;
    try reflexivity; try discriminate.
  rewrite andb_true_iff. intros [Hab Hl].
  rewrite (Ha b Hab), (IH l' Hl). reflexivity.
Qed.

Lemma name_eqb_eq (name name' : option string) :
  name_eqb name name' = true -> name = name'.
Proof.
  destruct name as [s |], name' as [s' |]; simpl;
    try reflexivity; try discriminate.
  intros H. apply String.eqb_eq in H. rewrite H. reflexivity.
Qed.

(** Two objects that are the same object are equal in every respect. *)
Lemma py_is_eq (a : object) : forall b, py_is a b = true -> a = b.
Proof.
  induction a as [p | p ms name IH | | o ms IHo IHms]
    using object_rect'
    with (Q := Forall (fun a => forall b, py_is a b = true -> a = b)).
  - intros [q | q ms' name']; simpl; [| discriminate].
    intros H. apply Nat.eqb_eq in H. rewrite H. reflexivity.
  - intros [q | q ms' name']; cbn [py_is]; [discriminate |].
    rewrite !andb_true_iff. intros [[Hp Hms] Hname].
    apply Nat.eqb_eq in Hp. apply (@list_all2_eq _ py_is ms IH) in Hms.
    apply name_eqb_eq in Hname. subst. reflexivity.
  - constructor.
  - constructor; assumption.
Qed.

Lemma py_is_sym (a b : object) : py_is a b = py_is b a.
Proof.
  destruct (py_is a b) eqn:E.
  - apply py_is_eq in E. subst. symmetry. apply py_is_refl.
  - destruct (py_is b a) eqn:E'; [| reflexivity].
    apply py_is_eq in E'. subst. rewrite py_is_refl in E. discriminate E.
Qed.

Lemma tuple_eq_sym (A : Type) (item_is item_eq : A -> A -> bool)
  (t : list A) :
  (forall a b, item_is a b = item_is b a) ->
  Forall (fun a => forall b, item_eq a b = item_eq b a) t ->
  forall u, tuple_eq item_is item_eq t u = tuple_eq item_is item_eq u t.
Proof.
  intros His. induction 1 as [| a t Ha _ IH]; intros [| b u]; simpl;
    try reflexivity.
  rewrite (His a b), Ha, IH. reflexivity.
Qed.

Lemma tuple_eq_trans (A : Type) (item_is item_eq : A -> A -> bool)
  (t : list A) :
  Forall (fun a => forall b c,
              item_is a b || item_eq a b = true ->
              item_is b c || item_eq b c = true ->
              item_is a c || item_eq a c = true) t ->
  forall u v,
    tuple_eq item_is item_eq t u = true ->
    tuple_eq item_is item_eq u v = true ->
    tuple_eq item_is item_eq t v = true.
Proof.
  induction 1 as [| a t Ha _ IH]; intros [| b u] [| c v]; simpl;
    try reflexivity; try discriminate.
  rewrite !andb_true_iff. intros [Hab Htu] [Hbc Huv].
  split; [apply (Ha b c); assumption | apply (IH u v); assumption].
Qed.

Section EqualityLaws.

Variable mesh_eq : Mesh -> Mesh -> bool.
Variable memory : nat -> Mesh.

Hypothesis mesh_eq_refl : forall m, mesh_eq m m = true.
Hypothesis mesh_eq_sym : forall m m', mesh_eq m m' = mesh_eq m' m.
Hypothesis mesh_eq_trans :
  forall m m' m'', mesh_eq m m' = true -> mesh_eq m' m'' = true ->
                   mesh_eq m m'' = true.

Lemma tuple_eq_same_content (ms : list object) :
  Forall (fun a => forall b,
              node_of memory a = node_of memory b ->
              py_eq mesh_eq memory a b = true) ms ->
  forall ms',
    map (node_of memory) ms = map (node_of memory) ms' ->
    tuple_eq py_is (py_eq mesh_eq memory) ms ms' = true.
Proof.
  induction 1 as [| a ms Ha _ IH]; intros [| b ms'] H; simpl;
    try reflexivity; try discriminate H.
  cbn [map] in H. injection H as Hab Hms.
  rewrite (Ha b Hab), (IH ms' Hms), orb_true_r. reflexivity.
Qed.

(** Two objects that stand for the same tree are equal. *)
Lemma py_eq_same_content (a : object) :
  forall b, node_of memory a = node_of memory b ->
            py_eq mesh_eq memory a b = true.
Proof.
  induction a as [p | p ms name IH | | o ms IHo IHms]
    using object_rect'
    with (Q := Forall (fun a => forall b,
                         node_of memory a = node_of memory b ->
                         py_eq mesh_eq memory a b = true)).
  - intros [q | q ms' name'] H; [| discriminate H].
    cbn [node_of] in H. injection H as H.
    cbn [py_eq]. rewrite H. apply mesh_eq_refl.
  - intros [q | q ms' name'] H; [discriminate H |].
    cbn [node_of] in H. injection H as Hms _.
    cbn [py_eq]. apply (@tuple_eq_same_content ms IH). exact Hms.
  - constructor.
  - constructor; assumption.
Qed.

Lemma py_eq_sym (a : object) :
  forall b, py_eq mesh_eq memory a b = py_eq mesh_eq memory b a.
Proof.
  induction a as [p | p ms name IH | | o ms IHo IHms]
    using object_rect'
    with (Q := Forall (fun a => forall b,
                         py_eq mesh_eq memory a b = py_eq mesh_eq memory b a)).
  - intros [q | q ms' name']; [apply mesh_eq_sym | reflexivity].
  - intros [q | q ms' name']; [reflexivity |].
    cbn [py_eq]. apply tuple_eq_sym; [exact py_is_sym | exact IH].
  - constructor.
  - constructor; assumption.
Qed.

(** The comparison of items is transitive where [==] is. *)
Lemma item_eq_trans (a : object) :
  (forall b c, py_eq mesh_eq memory a b = true ->
               py_eq mesh_eq memory b c = true ->
               py_eq mesh_eq memory a c = true) ->
  forall b c,
    py_is a b || py_eq mesh_eq memory a b = true ->
    py_is b c || py_eq mesh_eq memory b c = true ->
    py_is a c || py_eq mesh_eq memory a c = true.
Proof.
  intros Htrans b c Hab Hbc.
  destruct (py_is a b) eqn:Eab.
  - apply py_is_eq in Eab. subst b. exact Hbc.
  - destruct (py_is b c) eqn:Ebc.
    + apply py_is_eq in Ebc. subst c. rewrite Eab. exact Hab.
    + cbn [orb] in Hab, Hbc. rewrite (Htrans b c Hab Hbc).
      apply orb_true_r.
Qed.

Lemma py_eq_trans (a : object) :
  forall b c, py_eq mesh_eq memory a b = true ->
              py_eq mesh_eq memory b c = true ->
              py_eq mesh_eq memory a c = true.
Proof.
  induction a as [p | p ms name IH | | o ms IHo IHms]
    using object_rect'
    with (Q := Forall (fun a => forall b c,
                         py_eq mesh_eq memory a b = true ->
                         py_eq mesh_eq memory b c = true ->
                         py_eq mesh_eq memory a c = true)).
  - intros [q | q ms' name'] [r | r ms'' name'']; simpl;
      try discriminate. apply mesh_eq_trans.
  - intros [q | q ms' name'] [r | r ms'' name'']; cbn [py_eq];
      try discriminate. apply tuple_eq_trans.
    eapply Forall_impl; [| exact IH].
    intros a Ha. apply item_eq_trans. exact Ha.
  - constructor.
  - constructor; assumption.
Qed.

(** When the equality of leaves is reflexive, symmetric and transitive, so
    is the equality of collections, whatever their names: a collection is
    equal to every collection that holds the same content, two
    collections are equal in one order as in the other, and two
    collections equal to a third are equal. *)
Theorem collections_equality_is_an_equivalence :
  (forall p p' ms ms' name name',
      map (node_of memory) ms = map (node_of memory) ms' ->
      __eq__ mesh_eq memory (CollectionAt p ms name)
             (Object (CollectionAt p' ms' name'))
      = Some true)
  /\ (forall p p' ms ms' name name',
        __eq__ mesh_eq memory (CollectionAt p ms name)
               (Object (CollectionAt p' ms' name'))
        = __eq__ mesh_eq memory (CollectionAt p' ms' name')
                 (Object (CollectionAt p ms name)))
  /\ (forall p p' p'' ms ms' ms'' name name' name'',
        __eq__ mesh_eq memory (CollectionAt p ms name)
               (Object (CollectionAt p' ms' name'))
        = Some true ->
        __eq__ mesh_eq memory (CollectionAt p' ms' name')
               (Object (CollectionAt p'' ms'' name''))
        = Some true ->
        __eq__ mesh_eq memory (CollectionAt p ms name)
               (Object (CollectionAt p'' ms'' name''))
        = Some true).
Proof.
  cbn [__eq__ operand_isinstance_CollectionOfMeshes]. split; [| split].
  - intros p p' ms ms' name name' H. f_equal.
    apply (py_eq_same_content (CollectionAt p ms name)
                              (CollectionAt p' ms' name)).
    cbn [node_of]. rewrite H. reflexivity.
  - intros p p' ms ms' name name'. f_equal.
    apply (py_eq_sym (CollectionAt p ms name) (CollectionAt p' ms' name')).
  - intros p p' p'' ms ms' ms'' name name' name'' H H'.
    injection H as H. injection H' as H'. f_equal.
    apply (py_eq_trans (CollectionAt p ms name) (CollectionAt p' ms' name')
                       (CollectionAt p'' ms'' name'') H H').
Qed.

End EqualityLaws.

(** ** Where the tree view exists *)

Section TreeViewDefined.

Variable kwargs : Type.
Variable mesh_tree_view : kwargs -> Mesh -> string.

Lemma tree_view_loop_named (kw : kwargs) (ms : list node) :
  Forall (fun n =>
            if all_named n
            then exists s, tree_view mesh_tree_view kw n = Ok s
            else tree_view mesh_tree_view kw n = Raise TypeError) ms ->
  forall len i,
    if forallb all_named ms
    then exists l,
        tree_view_loop (tree_view mesh_tree_view kw) len i ms = Ok l
    else tree_view_loop (tree_view mesh_tree_view kw) len i ms
         = Raise TypeError.
Proof.
  induction 1 as [| n ms Hn _ IH]; intros len i.
  - exists []. reflexivity.
  - cbn [forallb tree_view_loop]. specialize (IH len (S i)).
    destruct (all_named n).
    + destruct Hn as [s ->]. cbn [bind andb].
      destruct (forallb all_named ms).
      * destruct IH as [l ->]. eexists. reflexivity.
      * rewrite IH. reflexivity.
    + rewrite Hn. reflexivity.
Qed.

(** The tree view is a string when every collection of the tree has a
    name, and raises [TypeError] as soon as one has none. *)
Theorem tree_view_defined_iff_all_named (kw : kwargs) (n : node) :
  if all_named n
  then exists s, tree_view mesh_tree_view kw n = Ok s
  else tree_view mesh_tree_view kw n = Raise TypeError.
Proof.
  induction n as [m | ms name IH | | n ms IHn IHms]
    using node_rect'
    with (Q := Forall (fun n =>
                 if all_named n
                 then exists s, tree_view mesh_tree_view kw n = Ok s
                 else tree_view mesh_tree_view kw n = Raise TypeError)).
  - eexists. reflexivity.
  - pose proof (tree_view_loop_named kw IH (length ms) 0) as H.
    cbn [all_named tree_view].
    destruct name as [s |].
    + destruct (forallb all_named ms).
      * destruct H as [l ->]. eexists. reflexivity.
      * rewrite H. reflexivity.
    + destruct (forallb all_named ms).
      * destruct H as [l ->]. reflexivity.
      * rewrite H. reflexivity.
  - constructor.
  - constructor; assumption.
Qed.

End TreeViewDefined.

(** ** The transformations that keep every child *)

Section LeafwiseTransformation.

(** A transformation [t] of the tree that applies [f] to every leaf, for
    an [f] that keeps the counts of a leaf. *)
Variable f : Mesh -> Mesh.
Variable t : node -> node.

Hypothesis t_leaf : forall m, t (Leaf m) = Leaf (f m).
Hypothesis t_collection :
  forall ms name, t (Collection ms name) = Collection (map t ms) name.
Hypothesis f_nb_vertices : forall m, mesh_nb_vertices (f m) = mesh_nb_vertices m.
Hypothesis f_nb_faces : forall m, mesh_nb_faces (f m) = mesh_nb_faces m.

Lemma leafwise_leaves (n : node) : leaves (t n) = map f (leaves n).
Proof.
  induction n as [m | ms name IH | | n ms IHn IHms]
    using node_rect'
    with (Q := fun ms => flat_map leaves (map t ms)
                         = map f (flat_map leaves ms)).
  - rewrite t_leaf. reflexivity.
  - rewrite t_collection. exact IH.
  - reflexivity.
  - cbn [map flat_map]. rewrite map_app, IHn, IHms. reflexivity.
Qed.

Lemma leafwise_nb_vertices (n : node) : nb_vertices (t n) = nb_vertices n.
Proof.
  rewrite (proj1 (leaves_counts (t n))), (proj1 (leaves_counts n)).
  rewrite leafwise_leaves, map_map. f_equal.
  apply map_ext. exact f_nb_vertices.
Qed.

Lemma leafwise_nb_faces (n : node) : nb_faces (t n) = nb_faces n.
Proof.
  rewrite (proj2 (leaves_counts (t n))), (proj2 (leaves_counts n)).
  rewrite leafwise_leaves, map_map. f_equal.
  apply map_ext. exact f_nb_faces.
Qed.

Lemma leafwise_no_empty_collection (n : node) :
  no_empty_collection (t n) = no_empty_collection n.
Proof.
  induction n as [m | ms name IH | | n ms IHn IHms]
    using node_rect'
    with (Q := fun ms => forallb no_empty_collection (map t ms)
                         = forallb no_empty_collection ms).
  - rewrite t_leaf. reflexivity.
  - rewrite t_collection. destruct ms as [| m ms]; [reflexivity |].
    exact IH.
  - reflexivity.
  - cbn [map forallb]. rewrite IHn, IHms. reflexivity.
Qed.

Lemma leafwise_indices_of_mesh (n : node) (k : Z) :
  indices_of_mesh (t n) k = indices_of_mesh n k.
Proof.
  destruct n as [m | ms name]; [rewrite t_leaf; reflexivity |].
  rewrite t_collection. unfold indices_of_mesh.
  assert (Hsum : forall l, map nb_faces (map t l) = map nb_faces l).
  { intros l. rewrite map_map. apply map_ext. exact leafwise_nb_faces. }
  assert (Hslice : map nb_faces (tuple_slice_to (map t ms) k)
                   = map nb_faces (tuple_slice_to ms k)).
  { unfold tuple_slice_to. rewrite length_map.
    destruct (0 <=? k)%Z; rewrite firstn_map; apply Hsum. }
  rewrite Hslice. unfold tuple_getitem. rewrite length_map.
  destruct (_ <? 0)%Z; [reflexivity |].
  rewrite nth_error_map.
  destruct (nth_error ms _) as [mi |]; [| reflexivity].
  cbn [option_map bind]. rewrite leafwise_nb_faces. reflexivity.
Qed.

Lemma leafwise_same_counts (n : node) : same_counts (t n) n.
Proof.
  unfold same_counts. repeat split.
  - destruct n as [m | ms name];
      [rewrite t_leaf | rewrite t_collection; simpl; rewrite length_map];
      reflexivity.
  - apply leafwise_nb_vertices.
  - apply leafwise_nb_faces.
  - apply leafwise_indices_of_mesh.
Qed.

(** When [f] keeps the faces of a leaf too, [t] keeps [faces]. *)
Lemma leafwise_faces (n : node) :
  (forall m, mesh_faces (f m) = mesh_faces m) ->
  faces (t n) = faces n.
Proof.
  intros f_faces. rewrite !faces_leaves.
  rewrite leafwise_no_empty_collection, leafwise_leaves.
  destruct (no_empty_collection n); [| reflexivity]. f_equal.
  generalize 0. induction (leaves n) as [| m ls IH]; intros acc;
    [reflexivity |].
  cbn [map shifted_faces_of_leaves].
  rewrite f_faces, f_nb_vertices, IH. reflexivity.
Qed.

End LeafwiseTransformation.

Section Transformations.

Variable Plane : Type.
Variable Vector : Type.
Variable Axis : Type.
Variable Angle : Type.
Variable mesh_translate : Vector -> Mesh -> Mesh.
Variable mesh_rotate : Axis -> Angle -> Mesh -> Mesh.
Variable mesh_mirror : Plane -> Mesh -> Mesh.

(** The transformations of a leaf keep its numbers of vertices and of
    faces. *)
Hypothesis translate_nb_vertices :
  forall v m, mesh_nb_vertices (mesh_translate v m) = mesh_nb_vertices m.
Hypothesis translate_nb_faces :
  forall v m, mesh_nb_faces (mesh_translate v m) = mesh_nb_faces m.
Hypothesis rotate_nb_vertices :
  forall ax an m, mesh_nb_vertices (mesh_rotate ax an m) = mesh_nb_vertices m.
Hypothesis rotate_nb_faces :
  forall ax an m, mesh_nb_faces (mesh_rotate ax an m) = mesh_nb_faces m.
Hypothesis mirror_nb_vertices :
  forall p m, mesh_nb_vertices (mesh_mirror p m) = mesh_nb_vertices m.
Hypothesis mirror_nb_faces :
  forall p m, mesh_nb_faces (mesh_mirror p m) = mesh_nb_faces m.

(** Then [translate], [rotate] and [mirror] drop no child and keep the
    bookkeeping of the tree: the numbers of children, of vertices and of
    faces, and the slice of every child. *)
Theorem transformations_keep_counts
  (vector : Vector) (axis : Axis) (angle : Angle) (plane : Plane) (n : node) :
  same_counts (translate mesh_translate vector n) n
  /\ same_counts (rotate mesh_rotate axis angle n) n
  /\ same_counts (mirror mesh_mirror plane n) n.
Proof.
  split; [| split].
  - apply (@leafwise_same_counts (mesh_translate vector)); auto.
  - apply (@leafwise_same_counts (mesh_rotate axis angle)); auto.
  - apply (@leafwise_same_counts (mesh_mirror plane)); auto.
Qed.

(** When the translation and the rotation of a leaf leave its array of
    faces as it is, those of a collection leave [faces] as it is. *)
Theorem translate_and_rotate_keep_faces
  (vector : Vector) (axis : Axis) (angle : Angle) (n : node) :
  (forall v m, mesh_faces (mesh_translate v m) = mesh_faces m) ->
  (forall ax an m, mesh_faces (mesh_rotate ax an m) = mesh_faces m) ->
  faces (translate mesh_translate vector n) = faces n
  /\ faces (rotate mesh_rotate axis angle n) = faces n.
Proof.
  intros Ht Hr. split.
  - apply (@leafwise_faces (mesh_translate vector)); auto.
  - apply (@leafwise_faces (mesh_rotate axis angle)); auto.
Qed.

End Transformations.

(** ** The further properties on the sample trees *)

Lemma sample_leaves_valid : Forall valid_mesh [square; roof].
Proof.
  unfold valid_mesh. repeat constructor; cbn; lia.
Qed.

Lemma faces_point_into_vertices_witness :
  Forall (face_in_range 7)
         [(0, 1, 2, 3)%Z; (4, 5, 6, 6)%Z; (6, 5, 4, 4)%Z].
Proof.
  apply (@faces_point_into_vertices house).
  - exact sample_leaves_valid.
  - reflexivity.
Defined.

Lemma faces_keep_their_corners_witness :
  map (face_corners (mesh_vertices square ++ mesh_vertices roof))
      [(0, 1, 2, 3)%Z; (4, 5, 6, 6)%Z; (6, 5, 4, 4)%Z]
  = flat_map (fun m => map (face_corners (mesh_vertices m)) (mesh_faces m))
             [square; roof].
Proof.
  apply (@faces_keep_their_corners house).
  - exact sample_leaves_valid.
  - reflexivity.
  - reflexivity.
Defined.

Lemma indices_of_mesh_out_of_range_witness :
  indices_of_mesh house 2 = Raise IndexError
  /\ indices_of_mesh house (-3) = Raise IndexError.
Proof.
  split.
  - apply (@indices_of_mesh_out_of_range
             [Leaf square; Leaf roof] (Some "AB"%string) 2).
    right. simpl. lia.
  - apply (@indices_of_mesh_out_of_range
             [Leaf square; Leaf roof] (Some "AB"%string) (-3)).
    left. simpl. lia.
Defined.

Lemma indices_of_mesh_tile_witness :
  slice_start (Slice 0 1) = 0
  /\ slice_start (Slice 1 3) = slice_stop (Slice 0 1)
  /\ slice_stop (Slice 1 3) = nb_faces house.
Proof.
  destruct (indices_of_mesh_tile [Leaf square; Leaf roof] (Some "AB"%string))
    as (Hfirst & Hnext & Hlast).
  split; [| split].
  - apply Hfirst. reflexivity.
  - apply (Hnext 0); reflexivity.
  - apply Hlast. reflexivity.
Defined.

Lemma indices_of_mesh_slices_face_arrays_witness :
  (forall a, faces_normals upward_normals house = Ok a ->
             faces_normals upward_normals (Leaf roof)
             = Ok (getitem_slice a (Slice 1 3)))
  /\ (forall a, faces_areas unit_areas house = Ok a ->
                faces_areas unit_areas (Leaf roof)
                = Ok (getitem_slice a (Slice 1 3)))
  /\ (forall a, faces_centers first_corners house = Ok a ->
                faces_centers first_corners (Leaf roof)
                = Ok (getitem_slice a (Slice 1 3)))
  /\ (forall a, faces_radiuses unit_areas house = Ok a ->
                faces_radiuses unit_areas (Leaf roof)
                = Ok (getitem_slice a (Slice 1 3))).
Proof.
  apply (@indices_of_mesh_slices_face_arrays
           upward_normals unit_areas first_corners unit_areas
           (fun m => length_map _ (mesh_faces m))
           (fun m => length_map _ (mesh_faces m))
           (fun m => length_map _ (mesh_faces m))
           (fun m => length_map _ (mesh_faces m))
           [Leaf square; Leaf roof] (Some "AB"%string) 1 (Leaf roof)
           (Slice 1 3)).
  - reflexivity.
  - reflexivity.
Defined.

Lemma keep_faces_under_in_range (h : float) (m : Mesh) :
  Forall (fun id => (0 <= id < Z.of_nat (mesh_nb_faces m))%Z)
         (snd (keep_faces_under h m)).
Proof.
  unfold keep_faces_under. cbn [snd].
  apply Forall_map, Forall_forall. intros [i f] Hin.
  apply filter_In in Hin. destruct Hin as [Hin _].
  apply in_combine_l, in_seq in Hin. cbn [fst]. lia.
Qed.

Lemma clip_faces_ids_in_range_witness :
  Forall (fun id => (0 <= id < 5)%Z)
         (snd (clip keep_faces_under (float_of_int 0)
                 (Collection [Leaf roof; Leaf square; Leaf roof] None))).
Proof.
  apply (@clip_faces_ids_in_range float keep_faces_under
           keep_faces_under_in_range (float_of_int 0)
           (Collection [Leaf roof; Leaf square; Leaf roof] None)).
Defined.

Lemma clipped_arrays_exist_iff_child_left_witness :
  (vertices (fst (clip keep_faces_under (float_of_int (-1)) house))
   = Raise ValueError
   /\ faces (fst (clip keep_faces_under (float_of_int (-1)) house))
      = Raise ValueError
   /\ center_of_mass_of_nodes mean_of_vertices
        (fst (clip keep_faces_under (float_of_int (-1)) house))
      = Raise ZeroDivisionError)
  /\ exists vs fs com,
       vertices (fst (clip keep_faces_under (float_of_int 0) house)) = Ok vs
       /\ faces (fst (clip keep_faces_under (float_of_int 0) house)) = Ok fs
       /\ center_of_mass_of_nodes mean_of_vertices
            (fst (clip keep_faces_under (float_of_int 0) house))
          = Ok (NdArray com).
Proof.
  split.
  - apply (@clipped_arrays_exist_iff_child_left float keep_faces_under
             mean_of_vertices (float_of_int (-1))
             [Leaf square; Leaf roof] (Some "AB"%string)).
    reflexivity.
  - apply (@clipped_arrays_exist_iff_child_left float keep_faces_under
             mean_of_vertices (float_of_int 0)
             [Leaf square; Leaf roof] (Some "AB"%string)).
    vm_compute. lia.
Defined.

Lemma immersed_arrays_exist_iff_child_left_witness :
  (vertices (keep_immersed_part (fun h m => fst (keep_faces_under h m))
               (float_of_int (-1)) house) = Raise ValueError
   /\ faces (keep_immersed_part (fun h m => fst (keep_faces_under h m))
               (float_of_int (-1)) house) = Raise ValueError
   /\ center_of_mass_of_nodes mean_of_vertices
        (keep_immersed_part (fun h m => fst (keep_faces_under h m))
           (float_of_int (-1)) house) = Raise ZeroDivisionError)
  /\ exists vs fs com,
       vertices (keep_immersed_part (fun h m => fst (keep_faces_under h m))
                   (float_of_int 0) house) = Ok vs
       /\ faces (keep_immersed_part (fun h m => fst (keep_faces_under h m))
                   (float_of_int 0) house) = Ok fs
       /\ center_of_mass_of_nodes mean_of_vertices
            (keep_immersed_part (fun h m => fst (keep_faces_under h m))
               (float_of_int 0) house) = Ok (NdArray com).
Proof.
  split.
  - apply (@immersed_arrays_exist_iff_child_left float
             (fun h m => fst (keep_faces_under h m))
             mean_of_vertices (float_of_int (-1))
             [Leaf square; Leaf roof] (Some "AB"%string)).
    reflexivity.
  - apply (@immersed_arrays_exist_iff_child_left float
             (fun h m => fst (keep_faces_under h m))
             mean_of_vertices (float_of_int 0)
             [Leaf square; Leaf roof] (Some "AB"%string)).
    vm_compute. lia.
Defined.

Lemma prune_empty_meshes_keeps_faces_witness :
  nb_faces (prune_empty_meshes
              (Collection
                 [Leaf square; Collection [] None;
                  Leaf (fst (keep_faces_under (float_of_int 0) roof))]
                 None))
  = nb_faces (Collection
                [Leaf square; Collection [] None;
                 Leaf (fst (keep_faces_under (float_of_int 0) roof))]
                None).
Proof.
  apply prune_empty_meshes_keeps_faces.
  unfold valid_mesh. repeat constructor; cbn; lia.
Defined.

Lemma init_accepts_meshes_and_collections_witness :
  __init__ [MeshLike (Leaf square); MeshLike house] (Some "all"%string)
  = Ok (Collection [Leaf square; house] (Some "all"%string))
  /\ exists ns,
       [MeshLike (Leaf roof)] = map MeshLike ns
       /\ Collection [Leaf roof] None = Collection ns None.
Proof.
  split.
  - apply init_accepts_meshes_and_collections.
    exists [Leaf square; house]. split; reflexivity.
  - apply (init_accepts_meshes_and_collections
             [MeshLike (Leaf roof)] None (Collection [Leaf roof] None)).
    reflexivity.
Defined.

Lemma volume_of_leaves_witness :
  volume (fun m => float_of_int (Z.of_nat (mesh_nb_faces m)))
         (Collection [Leaf square; Leaf roof] None)
  = PyFloat (fold_left PrimFloat.add [float_of_int 1; float_of_int 2] zero).
Proof.
  apply (@volume_of_leaves
           (fun m => float_of_int (Z.of_nat (mesh_nb_faces m)))
           [square; roof] None).
  discriminate.
Defined.

Lemma same_name_trans (m m' m'' : Mesh) :
  same_name m m' = true -> same_name m' m'' = true -> same_name m m'' = true.
Proof.
  unfold same_name. rewrite !String.eqb_eq. congruence.
Qed.

Lemma collections_equality_is_an_equivalence_witness :
  __eq__ same_name sample_memory
         (CollectionAt 10 [MeshAt 0; MeshAt 1] (Some "AB"%string))
         (Object (CollectionAt 11 [MeshAt 2; MeshAt 1] None))
  = Some true
  /\ __eq__ same_name sample_memory
            (CollectionAt 10 [MeshAt 0; MeshAt 1] (Some "AB"%string))
            (Object (CollectionAt 11 [MeshAt 1] None))
     = __eq__ same_name sample_memory
              (CollectionAt 11 [MeshAt 1] None)
              (Object (CollectionAt 10 [MeshAt 0; MeshAt 1] (Some "AB"%string))).
Proof.
  destruct (@collections_equality_is_an_equivalence same_name sample_memory
              (fun m => String.eqb_refl (mesh_name m))
              (fun m m' => String.eqb_sym (mesh_name m) (mesh_name m'))
              same_name_trans) as (Hrefl & Hsym & _).
  split.
  - apply Hrefl. reflexivity.
  - apply Hsym.
Defined.

Lemma transformations_keep_counts_witness :
  same_counts (translate move_by (point 1 0 0) house) house
  /\ same_counts (rotate quarter_turn tt tt house) house
  /\ same_counts (mirror flip_over (float_of_int 0) house) house.
Proof.
  apply (@transformations_keep_counts float vec3 unit unit
           move_by quarter_turn flip_over).
  - intros v m. apply length_map.
  - intros v m. reflexivity.
  - intros ax an m. apply length_map.
  - intros ax an m. reflexivity.
  - intros p m. apply length_map.
  - intros p m. apply length_map.
Defined.

Lemma translate_and_rotate_keep_faces_witness :
  faces (translate move_by (point 1 0 0) house) = faces house
  /\ faces (rotate quarter_turn tt tt house) = faces house.
Proof.
  apply (@translate_and_rotate_keep_faces vec3 unit unit
           move_by quarter_turn).
  - intros v m. apply length_map.
  - intros ax an m. apply length_map.
  - intros v m. reflexivity.
  - intros ax an m. reflexivity.
Defined.

(** ** The recorded ids come in increasing order *)

Lemma StronglySorted_app_lt (l l' : list Z) :
  StronglySorted Z.lt l -> StronglySorted Z.lt l' ->
  (forall x y, In x l -> In y l' -> (x < y)%Z) ->
  StronglySorted Z.lt (l ++ l').
Proof.
  induction 1 as [| a l Hl IH Ha]; intros Hl' Hlt; [exact Hl' |].
  cbn [app]. constructor.
  - apply IH; [exact Hl' |]. intros x y Hx Hy. apply Hlt; [right |]; assumption.
  - apply Forall_app. split; [exact Ha |].
    apply Forall_forall. intros y Hy. apply Hlt; [left; reflexivity | exact Hy].
Qed.

Lemma StronglySorted_shift (k : Z) (l : list Z) :
  StronglySorted Z.lt l ->
  StronglySorted Z.lt (map (fun id => (id + k)%Z) l).
Proof.
  induction 1 as [| a l Hl IH Ha]; cbn [map]; constructor.
  - exact IH.
  - apply Forall_map. eapply Forall_impl; [| exact Ha].
    cbv beta. intros b Hb. lia.
Qed.

Lemma flat_map_of_map (A B C : Type) (g : B -> C) (h : A -> list B)
  (l : list A) :
  flat_map (fun a => map g (h a)) l = map g (flat_map h l).
Proof.
  induction l as [| a l IH]; simpl; [reflexivity |].
  rewrite map_app, IH. reflexivity.
Qed.

(** The ids of a collection, child after child: those of the first child,
    then those of the others moved up by its number of faces. *)
Lemma shifted_ids_cons (child_ids : node -> list Z) (m : node) (ms : list node) :
  flat_map (shifted_ids_of_child child_ids (m :: ms)) (seq 0 (S (length ms)))
  = child_ids m
    ++ map (fun id => (id + Z.of_nat (nb_faces m))%Z)
           (flat_map (shifted_ids_of_child child_ids ms) (seq 0 (length ms))).
Proof.
  cbn [seq flat_map]. f_equal.
  - unfold shifted_ids_of_child. cbn [nth_error firstn map].
    change (list_sum []) with 0. rewrite <- (map_id (child_ids m)) at 2.
    apply map_ext. intros id. simpl. lia.
  - rewrite <- seq_shift, flat_map_map, <- flat_map_of_map.
    apply flat_map_ext. intros i. unfold shifted_ids_of_child.
    cbn [nth_error firstn map].
    destruct (nth_error ms i) as [mesh |]; [| reflexivity].
    rewrite map_map. apply map_ext. intros id.
    change (list_sum (nb_faces m :: map nb_faces (firstn i ms)))
      with (nb_faces m + list_sum (map nb_faces (firstn i ms))).
    lia.
Qed.

Section FacesIdsOrder.

Variable Plane : Type.
Variable mesh_clip : Plane -> Mesh -> Mesh * list Z.

(** What the clip of a leaf records are ids of faces of the leaf, in
    increasing order. *)
Hypothesis mesh_clip_ids_in_range :
  forall plane m,
    Forall (fun id => (0 <= id < Z.of_nat (mesh_nb_faces m))%Z)
           (snd (mesh_clip plane m)).
Hypothesis mesh_clip_ids_increasing :
  forall plane m, StronglySorted Z.lt (snd (mesh_clip plane m)).

Lemma clip_loop_ids_increasing (plane : Plane) (ms : list node) :
  Forall (fun n =>
            StronglySorted Z.lt (snd (clip mesh_clip plane n))
            /\ Forall (fun id => (0 <= id < Z.of_nat (nb_faces n))%Z)
                      (snd (clip mesh_clip plane n))) ms ->
  StronglySorted Z.lt
    (flat_map (shifted_ids_of_child (fun m => snd (clip mesh_clip plane m)) ms)
              (seq 0 (length ms)))
  /\ Forall (fun id => (0 <= id < Z.of_nat (list_sum (map nb_faces ms)))%Z)
            (flat_map
               (shifted_ids_of_child (fun m => snd (clip mesh_clip plane m)) ms)
               (seq 0 (length ms))).
Proof.
  induction 1 as [| m ms [Hsorted Hrange] _ [IHsorted IHrange]].
  - split; constructor.
  - change (length (m :: ms)) with (S (length ms)).
    rewrite shifted_ids_cons. cbn [map].
    change (list_sum (nb_faces m :: map nb_faces ms))
      with (nb_faces m + list_sum (map nb_faces ms)).
    rewrite Forall_forall in Hrange, IHrange.
    split.
    + apply StronglySorted_app_lt.
      * exact Hsorted.
      * apply StronglySorted_shift. exact IHsorted.
      * intros x y Hx Hy. apply in_map_iff in Hy.
        destruct Hy as (y' & <- & Hy').
        specialize (Hrange x Hx). specialize (IHrange y' Hy'). lia.
    + apply Forall_app. split; apply Forall_forall.
      * intros x Hx. specialize (Hrange x Hx). lia.
      * intros y Hy. apply in_map_iff in Hy.
        destruct Hy as (y' & <- & Hy').
        specialize (IHrange y' Hy'). lia.
Qed.

(** Then what the clip of a collection records comes in increasing order
    too: no face is recorded twice, and the faces of a child come before
    those of the next. *)
Theorem clip_faces_ids_increasing (plane : Plane) (n : node) :
  StronglySorted Z.lt (snd (clip mesh_clip plane n))
  /\ Forall (fun id => (0 <= id < Z.of_nat (nb_faces n))%Z)
            (snd (clip mesh_clip plane n)).
Proof.
  induction n as [m | ms name IH | | n ms IHn IHms]
    using node_rect'
    with (Q := Forall (fun n =>
                 StronglySorted Z.lt (snd (clip mesh_clip plane n))
                 /\ Forall (fun id => (0 <= id < Z.of_nat (nb_faces n))%Z)
                           (snd (clip mesh_clip plane n)))).
  - cbn [clip nb_faces].
    specialize (mesh_clip_ids_in_range plane m).
    specialize (mesh_clip_ids_increasing plane m).
    destruct (mesh_clip plane m) as [m' ids]. split; assumption.
  - rewrite clip_collection, nb_faces_collection. cbn [snd].
    apply clip_loop_ids_increasing. exact IH.
  - constructor.
  - constructor; assumption.
Qed.

End FacesIdsOrder.

Lemma keep_faces_under_increasing (h : float) (m : Mesh) :
  StronglySorted Z.lt (snd (keep_faces_under h m)).
Proof.
  unfold keep_faces_under. cbn [snd]. unfold mesh_nb_faces.
  generalize 0. induction (mesh_faces m) as [| f fs IH]; intros k;
    [constructor |].
  cbn [length seq combine filter].
  destruct (face_under h (mesh_vertices m) (snd (k, f))).
  - cbn [map fst]. constructor; [apply IH |].
    apply Forall_map, Forall_forall. intros [i g] Hin.
    apply filter_In in Hin. destruct Hin as [Hin _].
    apply in_combine_l, in_seq in Hin. cbn [fst]. lia.
  - apply IH.
Qed.

Lemma clip_faces_ids_increasing_witness :
  StronglySorted Z.lt
    (snd (clip keep_faces_under (float_of_int 1)
            (Collection [Leaf roof; house; Leaf roof] None)))
  /\ Forall (fun id => (0 <= id < 7)%Z)
            (snd (clip keep_faces_under (float_of_int 1)
                    (Collection [Leaf roof; house; Leaf roof] None))).
Proof.
  apply (@clip_faces_ids_increasing float keep_faces_under
           keep_faces_under_in_range keep_faces_under_increasing
           (float_of_int 1)
           (Collection [Leaf roof; house; Leaf roof] None)).
Defined.
